(** * tree_bench/to_csv.py: benchmark log to CSV

    A shallow embedding of [src/tree_bench/to_csv.py] and of the parts of
    the Python library it calls ([re.sub], [re.search], [str.replace],
    [json.loads], [float], [csv.DictWriter]), followed by the properties
    proved about it.

    Conventions.
    - Text is [list ascii]; a character is a code point in 0..255, so the
      model covers text over Latin-1.  The classes [\w], [\s] and [\d] are
      Python's on that range.
    - A Python exception that nothing catches ends the run; [exn] names
      the statement of the script that raised it.
    - Standard output is a list of events, one per [csv] write, rendered
      to text by [render]. *)

From Stdlib Require Import String Ascii List ZArith Bool Lia Arith.
From Stdlib Require Import Permutation.
From Stdlib Require DecimalFacts DecimalPos DecimalN.
Import ListNotations.
Local Open Scope Z_scope.

(** ** Text *)

Definition text := list ascii.

Definition str (s : string) : text := list_ascii_of_string s.

Definition code (c : ascii) : Z := Z.of_N (N_of_ascii c).

Definition chr (z : Z) : ascii := ascii_of_N (Z.to_N z).

Definition between (lo hi : Z) (c : ascii) : bool :=
  (lo <=? code c) && (code c <=? hi).

Definition is_char (a c : ascii) : bool := Ascii.eqb a c.

(** The double quote and the apostrophe. *)
Definition DQ : ascii := chr 34.

Definition SQ : ascii := chr 39.

(** [\d] of a [str] pattern: the decimal digits. Below U+0100 these are
    0-9 only. *)
Definition is_digit (c : ascii) : bool := between 48 57 c.

(** [\s] of a [str] pattern: tab, LF, VT, FF, CR, the four separators
    U+001C..U+001F, the space, NEL (U+0085) and the no-break space. *)
Definition is_space (c : ascii) : bool :=
  between 9 13 c || between 28 32 c || (code c =? 133) || (code c =? 160).

(** [\w] of a [str] pattern: alphanumerics and the underscore. Above
    U+007F these are the Latin-1 letters, the two ordinal indicators, the
    micro sign and the superscript digits and vulgar fractions. *)
Definition is_word (c : ascii) : bool :=
  between 48 57 c || between 65 90 c || between 97 122 c || (code c =? 95)
  || (code c =? 170) || between 178 179 c || (code c =? 181)
  || between 185 186 c || between 188 190 c || between 192 214 c
  || between 216 246 c || between 248 255 c.

(** [[\d.]]. *)
Definition is_digit_or_dot (c : ascii) : bool := is_digit c || is_char "." c.

Fixpoint text_eqb (a b : text) : bool :=
  match a, b with
  | [], [] => true
  | x :: a', y :: b' => Ascii.eqb x y && text_eqb a' b'
  | _, _ => false
  end.

(** [s.startswith(p)], returning what follows the prefix. *)
Fixpoint strip_prefix (p s : text) : option text :=
  match p, s with
  | [], _ => Some s
  | x :: p', y :: s' => if Ascii.eqb x y then strip_prefix p' s' else None
  | _ :: _, [] => None
  end.

(** [s.replace(a, b)] for one-character [a] and [b]. *)
Definition replace (a b : ascii) (s : text) : text :=
  map (fun c => if Ascii.eqb c a then b else c) s.

(** ** Regular expressions

    The fragment of [re] the script uses: a pattern is a sequence of
    items, each one character from a class, or a greedy [+] over a class;
    [GOpen] and [GClose] delimit capture group 1. *)

Module Re.

Inductive item :=
| One (a : ascii -> bool)
| Plus (a : ascii -> bool)
| GOpen
| GClose.

Definition pattern := list item.

Definition lit (s : string) : pattern := map (fun c => One (is_char c)) (str s).

(** A character consumed inside the group is added to the capture. *)
Definition push (ing : bool) (g : text) (c : ascii) : text :=
  if ing then g ++ [c] else g.

(** A greedy [a+] followed by the rest of the pattern [k]: at least one
    character of the class, and one more whenever that leads to a
    match; otherwise characters are given back. *)
Fixpoint plus_loop (a : ascii -> bool) (ing : bool)
  (k : text -> text -> option (text * text)) (g : text) (s : text)
  : option (text * text) :=
  match s with
  | c :: s' =>
      if a c then
        match plus_loop a ing k (push ing g c) s' with
        | Some r => Some r
        | None => k (push ing g c) s'
        end
      else None
  | [] => None
  end.

(** Backtracking match of [re] at the start of [s]. [ing] tells whether
    group 1 is open and [g] is what it has captured. The result is the
    capture and the unread text. *)
Fixpoint exec (re : pattern) (ing : bool) (g : text) (s : text)
  : option (text * text) :=
  match re with
  | [] => Some (g, s)
  | GOpen :: re' => exec re' true [] s
  | GClose :: re' => exec re' false g s
  | One a :: re' =>
      match s with
      | c :: s' => if a c then exec re' ing (push ing g c) s' else None
      | [] => None
      end
  | Plus a :: re' => plus_loop a ing (exec re' ing) g s
  end.

Definition match_at (re : pattern) (s : text) : option (text * text) :=
  exec re false [] s.

(** [re.search(re, s)]: the match at the leftmost position that has one;
    [m.group(1)] is the first component. *)
Fixpoint search (re : pattern) (s : text) : option (text * text) :=
  match match_at re s with
  | Some r => Some r
  | None => match s with
            | [] => None
            | _ :: s' => search re s'
            end
  end.

(** [re.sub(re, repl, s)] for a pattern that cannot match the empty
    text: every leftmost non-overlapping match is replaced by [repl]
    applied to its capture. [skip] counts the characters of the current
    match still to be passed over. *)
Fixpoint sub_from (re : pattern) (repl : text -> text) (skip : nat) (s : text)
  : text :=
  match s with
  | [] => []
  | c :: s' =>
      match skip with
      | S k => sub_from re repl k s'
      | O =>
          match match_at re s with
          | Some (g, rest) =>
              repl g ++ sub_from re repl (length s' - length rest) s'
          | None => c :: sub_from re repl O s'
          end
      end
  end.

Definition sub (re : pattern) (repl : text -> text) (s : text) : text :=
  sub_from re repl O s.

End Re.

(** [r"(\w+):"] *)
Definition KEY_RE : Re.pattern :=
  [Re.GOpen; Re.Plus is_word; Re.GClose] ++ Re.lit ":".

(** The replacement template ['"\\1":']. *)
Definition KEY_REPL (g : text) : text := [DQ] ++ g ++ [DQ] ++ str ":".

(** [r"thrpt:\s+\[([\d.]+) Kelem"] *)
Definition THRPT_RE : Re.pattern :=
  Re.lit "thrpt:" ++ [Re.Plus is_space] ++ Re.lit "["
  ++ [Re.GOpen; Re.Plus is_digit_or_dot; Re.GClose] ++ Re.lit " Kelem".

(** Lines 29-30: the two rewrites applied to a config line. *)
Definition normalize (line : text) : text :=
  replace SQ DQ (Re.sub KEY_RE KEY_REPL line).


(** ** Numbers

    [int] is [Z]. A [float] is an IEEE 754 binary64 value: [Finite neg m e]
    is (-1)^neg * m * 2^e with m = 0, or 2^52 <= m < 2^53 and
    -1074 <= e <= 971, or 0 < m < 2^52 and e = -1074. *)

Inductive float :=
| Finite (neg : bool) (m e : Z)
| Infinity (neg : bool)
| NaN.

(** The quotient [n / d] rounded to an integer, ties to even. *)
Definition round_half_even (n d : Z) : Z :=
  let q := n / d in
  let r := n mod d in
  if 2 * r <? d then q
  else if d <? 2 * r then q + 1
  else if Z.even q then q else q + 1.

(** The fraction [n / (d * 2^e)]. *)
Definition scaled (n d e : Z) : Z * Z :=
  if 0 <=? e then (n, d * 2 ^ e) else (n * 2 ^ (- e), d).

(** The binary64 nearest to [n / d] (round to nearest, ties to even),
    for [0 <= n] and [0 < d]. *)
Definition binary64 (neg : bool) (n d : Z) : float :=
  if n =? 0 then Finite neg 0 0
  else
    let e1 := Z.log2 n - Z.log2 d - 52 in
    let '(sn, sd) := scaled n d e1 in
    let e2 := if 2 ^ 52 * sd <=? sn then e1 else e1 - 1 in
    let e := Z.max e2 (-1074) in
    let '(sn, sd) := scaled n d e in
    let m := round_half_even sn sd in
    let '(m, e) := if m =? 2 ^ 53 then (2 ^ 52, e + 1) else (m, e) in
    if 971 <? e then Infinity neg else Finite neg m e.

Definition digit_val (c : ascii) : Z := code c - 48.

(** The number a text of decimal digits denotes. *)
Definition Z_of_digits (ds : text) : Z :=
  fold_left (fun acc c => acc * 10 + digit_val c) ds 0.

Fixpoint text_of_uint (u : Decimal.uint) : text :=
  match u with
  | Decimal.Nil => []
  | Decimal.D0 u => "0"%char :: text_of_uint u
  | Decimal.D1 u => "1"%char :: text_of_uint u
  | Decimal.D2 u => "2"%char :: text_of_uint u
  | Decimal.D3 u => "3"%char :: text_of_uint u
  | Decimal.D4 u => "4"%char :: text_of_uint u
  | Decimal.D5 u => "5"%char :: text_of_uint u
  | Decimal.D6 u => "6"%char :: text_of_uint u
  | Decimal.D7 u => "7"%char :: text_of_uint u
  | Decimal.D8 u => "8"%char :: text_of_uint u
  | Decimal.D9 u => "9"%char :: text_of_uint u
  end.

(** The decimal digits of a natural number, [0] for zero. *)
Definition digits_of_Z (z : Z) : text := text_of_uint (N.to_uint (Z.to_N z)).

(** [str(z)] for an [int]. *)
Definition int_str (z : Z) : text :=
  if z <? 0 then "-"%char :: digits_of_Z (- z) else digits_of_Z z.

(** The value of [int ++ frac] scaled by 10^(x - len(frac)), as a
    fraction. *)
Definition decimal_ratio (ip fp : text) (x : Z) : Z * Z :=
  let n := Z_of_digits (ip ++ fp) in
  let sc := x - Z.of_nat (length fp) in
  if 0 <=? sc then (n * 10 ^ sc, 1) else (n, 10 ^ (- sc)).

Definition float_of_decimal (neg : bool) (ip fp : text) (x : Z) : float :=
  let '(n, d) := decimal_ratio ip fp x in binary64 neg n d.

(** *** [repr] of a float

    Python prints the shortest decimal text that reads back as the same
    float, choosing the one nearest to the float's value; 17 significant
    digits always suffice. *)

(** Whether [10^t <= vn / vd]. *)
Definition pow10_le (t vn vd : Z) : bool :=
  if 0 <=? t then 10 ^ t * vd <=? vn else vd <=? vn * 10 ^ (- t).

Fixpoint raise_log10 (steps : nat) (t vn vd : Z) : Z :=
  match steps with
  | O => t
  | S steps' =>
      if pow10_le (t + 1) vn vd then raise_log10 steps' (t + 1) vn vd else t
  end.

(** The largest [t] with [10^t <= vn / vd]: an underestimate from the
    binary logarithms, raised until the next power of ten is too large. *)
Definition log10_floor (vn vd : Z) : Z :=
  raise_log10 8 ((Z.log2 vn - Z.log2 vd) * 30103 / 100000 - 2) vn vd.

(** The fraction [c * 10^p / d]. *)
Definition times_pow10 (c d p : Z) : Z * Z :=
  if 0 <=? p then (c * 10 ^ p, d) else (c, d * 10 ^ (- p)).

Definition round_trips (m e c p : Z) : bool :=
  let '(n, d) := times_pow10 c 1 p in
  match binary64 false n d with
  | Finite _ m' e' => (m' =? m) && (e' =? e)
  | _ => false
  end.

(** The two [k]-digit decimals [lo * 10^p] and [(lo + 1) * 10^p] around
    [m * 2^e], with whether [lo] is the nearer one. *)
Definition around (m e k : Z) : Z * Z * bool :=
  let '(vn, vd) := scaled m 1 (- e) in
  let p := log10_floor vn vd - (k - 1) in
  let '(qn, qd) := times_pow10 vn vd (- p) in
  let lo := qn / qd in
  let r := qn mod qd in
  (lo, p, (2 * r <? qd) || ((2 * r =? qd) && Z.even lo)).

Definition candidate (m e k : Z) : option (Z * Z) :=
  let '(lo, p, lo_nearer) := around m e k in
  let lo_ok := round_trips m e lo p in
  let hi_ok := round_trips m e (lo + 1) p in
  if lo_ok && (lo_nearer || negb hi_ok) then Some (lo, p)
  else if hi_ok then Some (lo + 1, p)
  else None.

Definition nearest (m e k : Z) : Z * Z :=
  let '(lo, p, lo_nearer) := around m e k in
  if lo_nearer then (lo, p) else (lo + 1, p).

Fixpoint first_some {A B : Type} (f : A -> option B) (l : list A) : option B :=
  match l with
  | [] => None
  | x :: l' => match f x with
               | Some y => Some y
               | None => first_some f l'
               end
  end.

(** The shortest round-tripping decimal [c * 10^p] of [m * 2^e]. *)
Definition shortest (m e : Z) : Z * Z :=
  match first_some (candidate m e) (map Z.of_nat (seq 1 16)) with
  | Some r => r
  | None => nearest m e 17
  end.

Fixpoint drop_zeros (rev_ds : text) : text :=
  match rev_ds with
  | c :: ds' => if is_char "0" c then drop_zeros ds' else rev_ds
  | [] => []
  end.

Definition zeros (n : Z) : text := repeat "0"%char (Z.to_nat n).

(** The layout of [repr]: [ds] are the significant digits and [decpt]
    the position of the decimal point after the first [decpt] of them.
    Plain notation when -4 < decpt <= 16, exponent notation otherwise. *)
Definition float_layout (ds : text) (decpt : Z) : text :=
  let n := Z.of_nat (length ds) in
  if (-4 <? decpt) && (decpt <=? 16) then
    if decpt <=? 0 then str "0." ++ zeros (- decpt) ++ ds
    else if n <=? decpt then ds ++ zeros (decpt - n) ++ str ".0"
    else firstn (Z.to_nat decpt) ds ++ str "." ++ skipn (Z.to_nat decpt) ds
  else
    let x := decpt - 1 in
    firstn 1 ds
    ++ (if n <=? 1 then [] else str "." ++ skipn 1 ds)
    ++ str "e" ++ (if x <? 0 then str "-" else str "+")
    ++ (if Z.abs x <? 10 then str "0" else []) ++ digits_of_Z (Z.abs x).

(** [repr(f)], which is also [str(f)]. *)
Definition float_repr (f : float) : text :=
  match f with
  | NaN => str "nan"
  | Infinity neg => (if neg then str "-" else []) ++ str "inf"
  | Finite neg m e =>
      (if neg then str "-" else []) ++
      (if m =? 0 then str "0.0"
       else
         let '(c, p) := shortest m e in
         let all := digits_of_Z c in
         float_layout (rev (drop_zeros (rev all))) (Z.of_nat (length all) + p))
  end.

(** *** [float(s)] for a [str] *)

Fixpoint span (p : ascii -> bool) (s : text) : text * text :=
  match s with
  | c :: s' =>
      if p c then let '(a, b) := span p s' in (c :: a, b) else ([], s)
  | [] => ([], [])
  end.

Fixpoint drop_while (p : ascii -> bool) (s : text) : text :=
  match s with
  | c :: s' => if p c then drop_while p s' else s
  | [] => []
  end.

(** [s.strip()] *)
Definition strip (s : text) : text :=
  rev (drop_while is_space (rev (drop_while is_space s))).

Definition lower (c : ascii) : ascii :=
  if between 65 90 c then chr (code c + 32) else c.

(** Underscores may only stand between two digits; they are removed. *)
Fixpoint remove_underscores (prev : ascii) (s : text) : option text :=
  match s with
  | [] => if is_char "_" prev then None else Some []
  | c :: s' =>
      if is_char "_" c then
        if is_digit prev then remove_underscores c s' else None
      else if is_char "_" prev && negb (is_digit c) then None
      else option_map (cons c) (remove_underscores c s')
  end.

Definition take_sign (s : text) : bool * text :=
  match s with
  | c :: s' =>
      if is_char "-" c then (true, s')
      else if is_char "+" c then (false, s')
      else (false, s)
  | [] => (false, [])
  end.

(** The exponent part: empty, or [e] or [E], an optional sign and at
    least one digit, up to the end of the text. *)
Definition parse_exponent (s : text) : option Z :=
  match s with
  | [] => Some 0
  | c :: s' =>
      if is_char "e" (lower c) then
        let '(neg, s2) := take_sign s' in
        let '(ds, s3) := span is_digit s2 in
        match ds, s3 with
        | _ :: _, [] => Some (if neg then - Z_of_digits ds else Z_of_digits ds)
        | _, _ => None
        end
      else None
  end.

(** [float(s)]; [None] is [ValueError]. *)
Definition py_float (s : text) : option float :=
  match remove_underscores (chr 0) (strip s) with
  | None => None
  | Some s0 =>
      let '(neg, s1) := take_sign s0 in
      let name := map lower s1 in
      if text_eqb name (str "inf") || text_eqb name (str "infinity")
      then Some (Infinity neg)
      else if text_eqb name (str "nan") then Some NaN
      else
        let '(ip, s2) := span is_digit s1 in
        let '(fp, s3) :=
          match s2 with
          | c :: s2' => if is_char "." c then span is_digit s2' else ([], s2)
          | [] => ([], [])
          end in
        match ip ++ fp with
        | [] => None
        | _ :: _ =>
            match parse_exponent s3 with
            | Some x => Some (float_of_decimal neg ip fp x)
            | None => None
            end
        end
  end.

(** ** Python values *)

#[warnings="-register-all"]
Inductive pyval :=
| PNone
| PBool (b : bool)
| PInt (z : Z)
| PFloat (f : float)
| PStr (s : text)
| PList (l : list pyval)
| PDict (d : list (text * pyval)).

(** A [dict] keeps its keys in insertion order. *)
Definition dict := list (text * pyval).

(** [d.get(k)] *)
Fixpoint dict_get (d : dict) (k : text) : option pyval :=
  match d with
  | [] => None
  | (k', v) :: d' => if text_eqb k' k then Some v else dict_get d' k
  end.

(** [d[k] = v]: an existing key keeps its place. *)
Fixpoint dict_set (d : dict) (k : text) (v : pyval) : dict :=
  match d with
  | [] => [(k, v)]
  | (k', v') :: d' =>
      if text_eqb k' k then (k', v) :: d' else (k', v') :: dict_set d' k v
  end.

Definition dict_keys (d : dict) : list text := map fst d.

(** ** [json.loads]

    The decoder of [json/decoder.py] and [json/scanner.py]. *)

(** The outcome of decoding: [Parsed], [Invalid] for [JSONDecodeError],
    [Unmodelled] when a [\u] escape denotes a code point above U+00FF,
    which [text] cannot hold, and [Starved] when the recursion budget of
    the model is used up. *)
Inductive parse (A : Type) :=
| Parsed (a : A)
| Invalid
| Unmodelled
| Starved.

Arguments Parsed {A} a.
Arguments Invalid {A}.
Arguments Unmodelled {A}.
Arguments Starved {A}.

Definition parse_bind {A B : Type} (p : parse A) (k : A -> parse B) : parse B :=
  match p with
  | Parsed a => k a
  | Invalid => Invalid
  | Unmodelled => Unmodelled
  | Starved => Starved
  end.

Notation "' pat <- p ;; k" := (parse_bind p (fun pat => k))
  (at level 61, pat pattern, p at next level, right associativity).

(** The whitespace of JSON: space, tab, LF, CR. *)
Definition is_json_ws (c : ascii) : bool :=
  is_char " " c || (code c =? 9) || (code c =? 10) || (code c =? 13).

Definition skip_ws (s : text) : text := drop_while is_json_ws s.

Definition hex_val (c : ascii) : option Z :=
  if is_digit c then Some (code c - 48)
  else if between 97 102 c then Some (code c - 87)
  else if between 65 70 c then Some (code c - 55)
  else None.

Definition hex4 (a b c d : ascii) : option Z :=
  match hex_val a, hex_val b, hex_val c, hex_val d with
  | Some x, Some y, Some z, Some w => Some (((x * 16 + y) * 16 + z) * 16 + w)
  | _, _, _, _ => None
  end.

(** The one-letter escapes of a JSON string. *)
Definition unescape (e : ascii) : option ascii :=
  if is_char DQ e then Some DQ
  else if is_char "\" e then Some "\"%char
  else if is_char "/" e then Some "/"%char
  else if is_char "b" e then Some (chr 8)
  else if is_char "f" e then Some (chr 12)
  else if is_char "n" e then Some (chr 10)
  else if is_char "r" e then Some (chr 13)
  else if is_char "t" e then Some (chr 9)
  else None.

(** [scanstring(s, end, strict=True)], from just after the opening quote:
    the decoded string and the text after the closing quote. *)
Fixpoint scanstring (s : text) : parse (text * text) :=
  match s with
  | [] => Invalid
  | c :: s' =>
      if is_char DQ c then Parsed ([], s')
      else if is_char "\" c then
        match s' with
        | [] => Invalid
        | e :: s2 =>
            if is_char "u" e then
              match s2 with
              | h1 :: h2 :: h3 :: h4 :: s3 =>
                  match hex4 h1 h2 h3 h4 with
                  | Some u =>
                      if u <? 256 then
                        '(t, r) <- scanstring s3 ;; Parsed (chr u :: t, r)
                      else Unmodelled
                  | None => Invalid
                  end
              | _ => Invalid
              end
            else
              match unescape e with
              | Some ch => '(t, r) <- scanstring s2 ;; Parsed (ch :: t, r)
              | None => Invalid
              end
        end
      else if code c <=? 31 then Invalid
      else '(t, r) <- scanstring s' ;; Parsed (c :: t, r)
  end.

(** [NUMBER_RE.match]: an optional minus sign and either [0] or a
    nonzero digit followed by digits; then optionally [\.\d+]; then
    optionally [[eE][-+]?\d+]. Each part returns what it matched (empty
    when the part is absent) and the text after it. *)
Definition number_sign (s : text) : text * text :=
  match s with
  | c :: s' => if is_char "-" c then ([c], s') else ([], s)
  | [] => ([], [])
  end.

Definition number_int (s : text) : option (text * text) :=
  match s with
  | [] => None
  | c :: s' =>
      if is_char "0" c then Some ([c], s')
      else if between 49 57 c then
        let '(ds, r) := span is_digit s' in Some (c :: ds, r)
      else None
  end.

Definition number_frac (s : text) : text * text :=
  match s with
  | p :: s' =>
      if is_char "." p then
        match span is_digit s' with
        | ([], _) => ([], s)
        | (fs, r) => (p :: fs, r)
        end
      else ([], s)
  | [] => ([], [])
  end.

Definition number_exp (s : text) : text * text :=
  match s with
  | e :: s' =>
      if is_char "e" (lower e) then
        let '(sg, r) :=
          match s' with
          | c :: r' =>
              if is_char "-" c || is_char "+" c then ([c], r') else ([], s')
          | [] => ([], [])
          end in
        match span is_digit r with
        | ([], _) => ([], s)
        | (xs, r') => (e :: sg ++ xs, r')
        end
      else ([], s)
  | [] => ([], [])
  end.

(** The three groups of the match and the text after it. *)
Definition match_number (s : text) : option (text * text * text * text) :=
  let '(sign, s1) := number_sign s in
  match number_int s1 with
  | None => None
  | Some (ip, r1) =>
      let '(frac, r2) := number_frac r1 in
      let '(exp, r3) := number_exp r2 in
      Some (sign ++ ip, frac, exp, r3)
  end.

(** [int(s)] for an optional minus sign and digits. CPython's limit on
    the number of digits of an [int] is not modelled. *)
Definition py_int (s : text) : Z :=
  let '(neg, ds) := take_sign s in
  if neg then - Z_of_digits ds else Z_of_digits ds.

(** The number branch of [_scan_once]. *)
Definition scan_number (s : text) : parse (pyval * text) :=
  match match_number s with
  | None => Invalid
  | Some (integer, frac, exp, rest) =>
      match frac ++ exp with
      | [] => Parsed (PInt (py_int integer), rest)
      | _ :: _ =>
          match py_float (integer ++ frac ++ exp) with
          | Some f => Parsed (PFloat f, rest)
          | None => Invalid
          end
      end
  end.

(** The constants and numbers of [_scan_once]. *)
Definition scan_atom (s : text) : parse (pyval * text) :=
  match strip_prefix (str "null") s with
  | Some r => Parsed (PNone, r)
  | None =>
  match strip_prefix (str "true") s with
  | Some r => Parsed (PBool true, r)
  | None =>
  match strip_prefix (str "false") s with
  | Some r => Parsed (PBool false, r)
  | None =>
  match match_number s with
  | Some _ => scan_number s
  | None =>
  match strip_prefix (str "NaN") s with
  | Some r => Parsed (PFloat NaN, r)
  | None =>
  match strip_prefix (str "Infinity") s with
  | Some r => Parsed (PFloat (Infinity false), r)
  | None =>
  match strip_prefix (str "-Infinity") s with
  | Some r => Parsed (PFloat (Infinity true), r)
  | None => Invalid
  end end end end end end end.

(** [_scan_once], [JSONObject] and [JSONArray]. [fuel] bounds the depth
    of the calls ([json_loads] passes enough of it, see
    [json_loads_not_starved]); Python's own recursion limit is not
    modelled.
    [object_pairs] starts just after the opening quote of a key,
    [array_items] at the start of an element. *)
Fixpoint scan_once (fuel : nat) (s : text) : parse (pyval * text) :=
  match fuel with
  | O => Starved
  | S fuel' =>
      match s with
      | [] => Invalid
      | c :: s' =>
          if is_char DQ c then
            '(t, r) <- scanstring s' ;; Parsed (PStr t, r)
          else if is_char "{" c then
            match skip_ws s' with
            | c1 :: s1 =>
                if is_char "}" c1 then Parsed (PDict [], s1)
                else if is_char DQ c1 then object_pairs fuel' [] s1
                else Invalid
            | [] => Invalid
            end
          else if is_char "[" c then
            match skip_ws s' with
            | c1 :: s1 =>
                if is_char "]" c1 then Parsed (PList [], s1)
                else array_items fuel' [] (c1 :: s1)
            | [] => Invalid
            end
          else scan_atom s
      end
  end

with object_pairs (fuel : nat) (acc : dict) (s : text) : parse (pyval * text) :=
  match fuel with
  | O => Starved
  | S fuel' =>
      '(key, s1) <- scanstring s ;;
      match skip_ws s1 with
      | c :: s2 =>
          if is_char ":" c then
            '(v, s3) <- scan_once fuel' (skip_ws s2) ;;
            let acc' := dict_set acc key v in
            match skip_ws s3 with
            | c3 :: s4 =>
                if is_char "}" c3 then Parsed (PDict acc', s4)
                else if is_char "," c3 then
                  match skip_ws s4 with
                  | c5 :: s5 =>
                      if is_char DQ c5 then object_pairs fuel' acc' s5
                      else Invalid
                  | [] => Invalid
                  end
                else Invalid
            | [] => Invalid
            end
          else Invalid
      | [] => Invalid
      end
  end

with array_items (fuel : nat) (acc : list pyval) (s : text) : parse (pyval * text) :=
  match fuel with
  | O => Starved
  | S fuel' =>
      '(v, s1) <- scan_once fuel' s ;;
      match skip_ws s1 with
      | c :: s2 =>
          if is_char "]" c then Parsed (PList (acc ++ [v]), s2)
          else if is_char "," c then array_items fuel' (acc ++ [v]) (skip_ws s2)
          else Invalid
      | [] => Invalid
      end
  end.

(** [json.loads(s)]: one value, whitespace around it, nothing else. *)
Definition json_loads (s : text) : parse pyval :=
  '(v, rest) <- scan_once (S (2 * length s)) (skip_ws s) ;;
  match skip_ws rest with
  | [] => Parsed v
  | _ :: _ => Invalid
  end.

(** ** [str] and [repr] of values *)

Fixpoint join (sep : text) (parts : list text) : text :=
  match parts with
  | [] => []
  | [p] => p
  | p :: parts' => p ++ sep ++ join sep parts'
  end.

(** [c.isprintable()] on Latin-1. *)
Definition printable (c : ascii) : bool :=
  negb (code c <=? 31) && negb (between 127 160 c) && negb (code c =? 173).

Definition hex_digit (z : Z) : ascii :=
  if z <? 10 then chr (48 + z) else chr (87 + z).

(** [repr(s)] for a [str]: single quotes unless the text has an
    apostrophe and no double quote. *)
Definition str_repr (s : text) : text :=
  let q := if existsb (is_char SQ) s && negb (existsb (is_char DQ) s)
           then DQ else SQ in
  let esc (c : ascii) : text :=
    if is_char q c || is_char "\" c then ["\"%char; c]
    else if code c =? 9 then str "\t"
    else if code c =? 10 then str "\n"
    else if code c =? 13 then str "\r"
    else if printable c then [c]
    else str "\x" ++ [hex_digit (code c / 16); hex_digit (code c mod 16)] in
  [q] ++ flat_map esc s ++ [q].

Fixpoint py_repr (v : pyval) : text :=
  match v with
  | PNone => str "None"
  | PBool true => str "True"
  | PBool false => str "False"
  | PInt z => int_str z
  | PFloat f => float_repr f
  | PStr s => str_repr s
  | PList l => str "[" ++ join (str ", ") (map py_repr l) ++ str "]"
  | PDict d =>
      str "{"
      ++ join (str ", ")
           (map (fun '(k, x) => str_repr k ++ str ": " ++ py_repr x) d)
      ++ str "}"
  end.

Definition py_str (v : pyval) : text :=
  match v with
  | PStr s => s
  | _ => py_repr v
  end.

(** ** [csv]: the [excel] dialect with [QUOTE_MINIMAL] *)

(** The text of one field: [None] is written as the empty text, a [str]
    as it is, anything else through [str()]. *)
Definition field_text (v : pyval) : text :=
  match v with
  | PNone => []
  | _ => py_str v
  end.

Definition needs_quotes (f : text) : bool :=
  existsb (fun c => is_char "," c || is_char DQ c
                    || (code c =? 13) || (code c =? 10)) f.

(** A field with a delimiter, a quote or a line break is quoted, its
    quotes doubled. *)
Definition csv_field (f : text) : text :=
  if needs_quotes f
  then [DQ] ++ flat_map (fun c => if is_char DQ c then [DQ; DQ] else [c]) f ++ [DQ]
  else f.

Definition CRLF : text := [chr 13; chr 10].

(** [csv.writer.writerow(row)]; a row of one empty field is written as
    two quotes. *)
Definition csv_record (row : list pyval) : text :=
  match map field_text row with
  | [[]] => [DQ; DQ] ++ CRLF
  | fields => join (str ",") (map csv_field fields) ++ CRLF
  end.

(** ** The script *)

(** Lines 12-21. *)
Definition FIELD_NAMES : list text :=
  map str ["name"; "set_size_m"; "batch_size_k"; "arity"; "total_memory_m";
           "num_hashing_per_batch"; "disk_bytes_per_update";
           "k_updates_per_sec"]%string.

Definition K_UPDATES_PER_SEC : text := str "k_updates_per_sec".

Definition is_field_name (k : text) : bool := existsb (text_eqb k) FIELD_NAMES.

(** [rowdict.keys() - self.fieldnames] *)
Definition wrong_fields (d : dict) : list text :=
  filter (fun k => negb (is_field_name k)) (dict_keys d).

(** [DictWriter._dict_to_list] with [extrasaction='raise'] and
    [restval='']; [None] is [ValueError]. *)
Definition dict_to_list (d : dict) : option (list pyval) :=
  match wrong_fields d with
  | [] =>
      Some (map (fun k => match dict_get d k with
                          | Some v => v
                          | None => PStr []
                          end) FIELD_NAMES)
  | _ :: _ => None
  end.

(** What the script writes to standard output: line 23 writes the
    header, line 37 a row. *)
Inductive event :=
| Header
| Row (cells : list pyval).

Definition render (ev : event) : text :=
  match ev with
  | Header => csv_record (map PStr FIELD_NAMES)
  | Row cells => csv_record cells
  end.

Definition stdout_text (evs : list event) : text := concat (map render evs).

(** The uncaught exceptions, by the statement that raises them. *)
Inductive exn :=
| JSONDecodeError        (* line 31, json.loads *)
| RaiseStr               (* line 35, raise of a str: TypeError *)
| FloatValueError        (* line 36, float(m.group(1)) *)
| SetItemTypeError       (* line 36, record[...] = ... on a non-dict *)
| ExtraFieldsValueError. (* line 37, DictWriter.writerow *)

(** How a run ends. [OutsideModel]: a config line left the model (see
    [Unmodelled]). *)
Inductive outcome :=
| Exit0
| Uncaught (e : exn)
| OutsideModel.

(** The exit status of the interpreter. *)
Definition exit_code (o : outcome) : option Z :=
  match o with
  | Exit0 => Some 0
  | Uncaught _ => Some 1
  | OutsideModel => None
  end.

(** The state of the loop: the variable [record] and what has been
    written so far. *)
Record machine := { record : pyval; out : list event }.

(** [record[k] = v]; [None] is [TypeError]. *)
Definition setitem (r : pyval) (k : text) (v : pyval) : option dict :=
  match r with
  | PDict d => Some (dict_set d k v)
  | _ => None
  end.

(** Lines 33-38, the [else] branch. *)
Definition throughput_line (m : machine) (line : text) : machine + outcome :=
  match Re.search THRPT_RE line with
  | None => inr (Uncaught RaiseStr)
  | Some (g, _) =>
      match py_float g with
      | None => inr (Uncaught FloatValueError)
      | Some f =>
          match setitem (record m) K_UPDATES_PER_SEC (PFloat f) with
          | None => inr (Uncaught SetItemTypeError)
          | Some d =>
              match dict_to_list d with
              | None => inr (Uncaught ExtraFieldsValueError)
              | Some cells =>
                  inl {| record := PNone; out := out m ++ [Row cells] |}
              end
          end
      end
  end.

(** Lines 29-31, the [if] branch. *)
Definition config_line (m : machine) (line : text) : machine + outcome :=
  match json_loads (normalize line) with
  | Parsed v => inl {| record := v; out := out m |}
  | Invalid => inr (Uncaught JSONDecodeError)
  | Unmodelled | Starved => inr OutsideModel
  end.

(** Lines 28-38: the body of the loop. *)
Definition feed (m : machine) (line : text) : machine + outcome :=
  match record m with
  | PNone => config_line m line
  | _ => throughput_line m line
  end.

(** Line 27: the loop over the lines of standard input. *)
Fixpoint run_from (m : machine) (lines : list text) : machine * outcome :=
  match lines with
  | [] => (m, Exit0)
  | line :: rest =>
      match feed m line with
      | inl m' => run_from m' rest
      | inr o => (m, o)
      end
  end.

(** Lines 22-26. *)
Definition initial : machine := {| record := PNone; out := [Header] |}.

Definition main (lines : list text) : machine * outcome :=
  run_from initial lines.

(** The rows written, without the header. *)
Definition rows (m : machine) : list (list pyval) :=
  flat_map (fun ev => match ev with Row c => [c] | Header => [] end) (out m).

(** [for line in sys.stdin]: the input cut after each line feed, a last
    line without one included; no other line ending is translated, as
    on POSIX. [cur] is the line being read. *)
Fixpoint lines_of (cur : text) (s : text) : list text :=
  match s with
  | [] => match cur with [] => [] | _ :: _ => [cur] end
  | c :: s' =>
      if code c =? 10 then (cur ++ [c]) :: lines_of [] s'
      else lines_of (cur ++ [c]) s'
  end.

(** The program: standard input to standard output and exit status. *)
Definition program (stdin : text) : text * outcome :=
  let '(m, o) := main (lines_of [] stdin) in (stdout_text (out m), o).

(** ** A run in its environment

    Two runs on the same input differ in one thing that the code run by
    the script consults: the seed with which the interpreter salts the
    hash of every [str]. Each process draws its own, and the order in
    which a [set] of [str] is iterated follows the salted hashes.
    [iteration e l] is the order in which a run in the environment [e]
    iterates over the set whose elements are [l]. The script opens no
    file and sets no variable of the process environment, so a run
    hands nothing to the next one; the environment of a second run is
    any [env]. *)
Record env := { iteration : list text -> list text }.

(** A set is iterated over its elements, each one once. *)
Definition lawful (e : env) : Prop :=
  forall l, Permutation l (iteration e l).

(** [DictWriter._dict_to_list] with [extrasaction='raise'] and
    [restval=''], in an environment. The set
    [rowdict.keys() - self.fieldnames] is tested for emptiness; when it
    is not empty it is iterated for the message of the [ValueError],
    [", ".join([repr(x) for x in wrong_fields])]. *)
Definition dict_to_list_in (e : env) (d : dict) : list pyval + text :=
  match wrong_fields d with
  | [] =>
      inl (map (fun k => match dict_get d k with
                         | Some v => v
                         | None => PStr []
                         end) FIELD_NAMES)
  | _ :: _ =>
      inr (str "dict contains fields not in fieldnames: "
           ++ join (str ", ")
                (map str_repr (iteration e (wrong_fields d))))
  end.

(** How a step fails in an environment: the outcome and, for the
    [ValueError] of line 37, the message of the exception, which the
    interpreter prints on standard error after the traceback. The
    messages of the other exceptions are not modelled. *)
Definition failure : Type := outcome * option text.

(** Lines 33-38 in an environment. *)
Definition throughput_line_in (e : env) (m : machine) (line : text)
  : machine + failure :=
  match Re.search THRPT_RE line with
  | None => inr (Uncaught RaiseStr, None)
  | Some (g, _) =>
      match py_float g with
      | None => inr (Uncaught FloatValueError, None)
      | Some f =>
          match setitem (record m) K_UPDATES_PER_SEC (PFloat f) with
          | None => inr (Uncaught SetItemTypeError, None)
          | Some d =>
              match dict_to_list_in e d with
              | inr msg => inr (Uncaught ExtraFieldsValueError, Some msg)
              | inl cells =>
                  inl {| record := PNone; out := out m ++ [Row cells] |}
              end
          end
      end
  end.

(** Lines 28-38 in an environment; lines 29-31 build no set. *)
Definition feed_in (e : env) (m : machine) (line : text)
  : machine + failure :=
  match record m with
  | PNone =>
      match config_line m line with
      | inl m' => inl m'
      | inr o => inr (o, None)
      end
  | _ => throughput_line_in e m line
  end.

(** Line 27 in an environment. *)
Fixpoint run_from_in (e : env) (m : machine) (lines : list text)
  : machine * failure :=
  match lines with
  | [] => (m, (Exit0, None))
  | line :: rest =>
      match feed_in e m line with
      | inl m' => run_from_in e m' rest
      | inr x => (m, x)
      end
  end.

(** What one run leaves to be seen: the text on standard output, how
    the run ended, and the message of the [ValueError] of line 37 when
    the run ended there. *)
Record trace :=
  { stdout : text; ending : outcome; message : option text }.

(** The program run on [stdin] in the environment [e]. *)
Definition run (e : env) (stdin : text) : trace :=
  let '(m, (o, msg)) := run_from_in e initial (lines_of [] stdin) in
  {| stdout := stdout_text (out m); ending := o; message := msg |}.

(** Two environments: sets iterated in the order of [wrong_fields], and
    in the opposite order. *)
Definition in_order : env := {| iteration := fun l => l |}.
Definition in_reverse : env := {| iteration := @rev text |}.

(** A record with two keys that are no field names, and its throughput
    line. *)
Definition TWO_EXTRA_KEYS : text :=
  str "{name: 'a', x: 1, y: 2}" ++ [chr 10]
  ++ str "thrpt: [1 Kelem" ++ [chr 10].

(** ** The specification's vocabulary *)

(** The throughput pattern in the specification's words: [thrpt:], one
    or more whitespace characters, [[], a number made of digits and
    points, a space and [Kelem], anywhere in the line. *)
Definition contains_thrpt (line : text) : Prop :=
  exists pre ws num post,
    line = pre ++ str "thrpt:" ++ ws ++ str "[" ++ num ++ str " Kelem" ++ post
    /\ ws <> [] /\ forallb is_space ws = true
    /\ num <> [] /\ forallb is_digit_or_dot num = true.

Definition dots (g : text) : nat := length (filter (is_char ".") g).

(** Digits with at most one decimal point, and at least one digit. *)
Definition decimal_number (g : text) : bool :=
  forallb is_digit_or_dot g && (dots g <=? 1)%nat && existsb is_digit g.

(** A config line that decodes to a record over the fixed fields. *)
Definition valid_config (line : text) (d : dict) : Prop :=
  json_loads (normalize line) = Parsed (PDict d)
  /\ forallb is_field_name (dict_keys d) = true.

(** A throughput line whose number [g] is a decimal number. *)
Definition valid_throughput (line : text) (g : text) : Prop :=
  (exists r, Re.search THRPT_RE line = Some (g, r))
  /\ decimal_number g = true.

(** The cell of field [k] in the row of record [d] with throughput [f]:
    empty text when the record lacks the field. *)
Definition cell_of (d : dict) (f : float) (k : text) : pyval :=
  if text_eqb k K_UPDATES_PER_SEC then PFloat f
  else match dict_get d k with
       | Some v => v
       | None => PStr []
       end.

(** A row written from config line [c] directly followed by throughput
    line [t]. *)
Definition from_pair (c t : text) (cells : list pyval) : Prop :=
  exists d g r f,
    json_loads (normalize c) = Parsed (PDict d)
    /\ Re.search THRPT_RE t = Some (g, r)
    /\ py_float g = Some f
    /\ cells = map (cell_of d f) FIELD_NAMES.


(** Letters, digits, the underscore and the space. *)
Definition is_plain (c : ascii) : bool := is_word c || is_char " " c.

Definition LF : text := [chr 10].

(** ** What a pattern denotes *)

Definition pushes (ing : bool) (g run : text) : text :=
  if ing then g ++ run else g.

(** [matches re ing g s g' r]: [re] matches a prefix of [s] leaving [r];
    the capture goes from [g] to [g']. *)
Inductive matches : Re.pattern -> bool -> text -> text -> text -> text -> Prop :=
| matches_nil ing g s :
    matches [] ing g s g s
| matches_open re ing g s g' r :
    matches re true [] s g' r ->
    matches (Re.GOpen :: re) ing g s g' r
| matches_close re ing g s g' r :
    matches re false g s g' r ->
    matches (Re.GClose :: re) ing g s g' r
| matches_one a re ing g c s g' r :
    a c = true ->
    matches re ing (Re.push ing g c) s g' r ->
    matches (Re.One a :: re) ing g (c :: s) g' r
| matches_plus a re ing g run s g' r :
    run <> [] ->
    forallb a run = true ->
    matches re ing (pushes ing g run) s g' r ->
    matches (Re.Plus a :: re) ing g (run ++ s) g' r.

(** ** Reading the state *)

(** The number of records read and not yet written. *)
Definition pending (m : machine) : nat :=
  match record m with
  | PNone => 0
  | _ => 1
  end.

Definition is_header (ev : event) : bool :=
  match ev with
  | Header => true
  | Row _ => false
  end.

(** [cells] was written from two consecutive lines of [lines]. *)
Definition adjacent (lines : list text) (cells : list pyval) : Prop :=
  exists pre c t post, lines = pre ++ c :: t :: post /\ from_pair c t cells.

(** The lines of a list of (config line, throughput line) pairs. *)
Definition interleave (pairs : list (text * text)) : list text :=
  flat_map (fun p => [fst p; snd p]) pairs.

(** ** The examples of the specification *)

Definition BENCH1 : text :=
  str "name: 'bench1', set_size_m: 10, batch_size_k: 4, arity: 2, total_memory_m: 64, num_hashing_per_batch: 3, disk_bytes_per_update: 8".

(** The config line as the specification prints it, and inside braces. *)
Definition BENCH1_LINE : text := BENCH1 ++ LF.

Definition BENCH1_BRACED : text := str "{" ++ BENCH1 ++ str "}" ++ LF.

Definition BENCH1_RECORD : dict :=
  [(str "name", PStr (str "bench1")); (str "set_size_m", PInt 10);
   (str "batch_size_k", PInt 4); (str "arity", PInt 2);
   (str "total_memory_m", PInt 64); (str "num_hashing_per_batch", PInt 3);
   (str "disk_bytes_per_update", PInt 8)].

Definition THRPT_LINE : text := str "thrpt:   [123.45 Kelem/s]" ++ LF.

(** The binary64 nearest to 123.45. *)
Definition F_123_45 : float := Finite false 8687021468732621 (-46).

Definition MELEM_LINE : text := str "thrpt: [99.0 Melem/s]" ++ LF.

Definition TWO_POINTS_LINE : text := str "thrpt: [1.2.3 Kelem/s]" ++ LF.




(** ** Further vocabulary *)

(** No word character of [s] is directly followed by a colon: the key
    pattern of line 29 matches nowhere in [s]. *)
Fixpoint no_word_colon (s : text) : bool :=
  match s with
  | c :: s' =>
      match s' with
      | c' :: _ => negb (is_word c && is_char ":" c') && no_word_colon s'
      | [] => true
      end
  | [] => true
  end.

(** The config line [{name: 'w:b'}]: a value with a colon after [w]. *)
Definition colon_value_line (w b : text) : text :=
  str "{name: '" ++ w ++ str ":" ++ b ++ str "'}" ++ LF.

(** The config line [{name: 's'}]. *)
Definition plain_value_line (s : text) : text :=
  str "{name: '" ++ s ++ str "'}" ++ LF.

(** A config line that is JSON already. *)
Definition JSON_LINE : text :=
  str "{" ++ [DQ] ++ str "name" ++ [DQ] ++ str ": " ++ [DQ] ++ str "b" ++ [DQ]
  ++ str ", " ++ [DQ] ++ str "arity" ++ [DQ] ++ str ": 2}" ++ LF.

(** *** Reading a record back

    The script only writes CSV. To show that what it writes loses
    nothing, the fields of a line are read back by [csv_fields], the
    reader of the [excel] dialect on one line: where the reader is
    within the line, the field read so far, and the text left. *)
Inductive reading :=
| AtStart      (* at the start of a field *)
| InField      (* in a field without quotes *)
| InQuoted     (* in a quoted field *)
| AfterQuote.  (* just after a quote inside a quoted field *)

Fixpoint csv_fields (st : reading) (cur : text) (s : text) : list text :=
  match s with
  | [] => [cur]
  | c :: s' =>
      match st with
      | AtStart =>
          if is_char DQ c then csv_fields InQuoted [] s'
          else if is_char "," c then [] :: csv_fields AtStart [] s'
          else csv_fields InField [c] s'
      | InField =>
          if is_char "," c then cur :: csv_fields AtStart [] s'
          else csv_fields InField (cur ++ [c]) s'
      | InQuoted =>
          if is_char DQ c then csv_fields AfterQuote cur s'
          else csv_fields InQuoted (cur ++ [c]) s'
      | AfterQuote =>
          if is_char DQ c then csv_fields InQuoted (cur ++ [DQ]) s'
          else if is_char "," c then cur :: csv_fields AtStart [] s'
          else csv_fields InField (cur ++ [c]) s'
      end
  end.

(** What [csv_fields] reads after a field that ends at [tail]: nothing
    at the end of the line, the fields after the comma otherwise. *)
Definition after_field (tail : text) : list text :=
  match tail with
  | [] => []
  | _ :: rest => csv_fields AtStart [] rest
  end.

(** A field ends at the end of the line or at a comma. *)
Definition field_end (tail : text) : Prop :=
  tail = [] \/ exists rest, tail = ","%char :: rest.

(** The result of a scan when the text [t] is added after what was
    scanned: the value is the same and [t] is left over as well. *)
Definition extend {A : Type} (t : text) (p : parse (A * text))
  : parse (A * text) :=
  match p with
  | Parsed (a, r) => Parsed (a, r ++ t)
  | Invalid => Invalid
  | Unmodelled => Unmodelled
  | Starved => Starved
  end.

(** * Properties *)

(** ** Characters and text *)

Lemma text_eqb_eq (a b : text) : text_eqb a b = true <-> a = b.
Proof.
  revert b; induction a as [|x a IH]; intros [|y b]; simpl;
    try (split; [discriminate | congruence]); try tauto.
  rewrite andb_true_iff, Ascii.eqb_eq, IH.
  split; [intros [-> ->]; reflexivity | intros H; inversion H; auto].
Qed.

Lemma text_eqb_refl (a : text) : text_eqb a a = true.
Proof. apply text_eqb_eq; reflexivity. Qed.

Lemma text_eqb_neq (a b : text) : text_eqb a b = false <-> a <> b.
Proof.
  destruct (text_eqb a b) eqn:E.
  - apply text_eqb_eq in E; split; [discriminate | contradiction].
  - split; [|reflexivity]. intros _ H. apply text_eqb_eq in H. congruence.
Qed.

Lemma is_char_eq (a c : ascii) : is_char a c = true <-> c = a.
Proof. unfold is_char. rewrite Ascii.eqb_eq. split; congruence. Qed.

Lemma strip_prefix_app (p s : text) : strip_prefix p (p ++ s) = Some s.
Proof.
  induction p as [|x p IH]; simpl; [reflexivity|].
  rewrite Ascii.eqb_refl. exact IH.
Qed.

Lemma strip_prefix_some (p s r : text) : strip_prefix p s = Some r -> s = p ++ r.
Proof.
  revert s; induction p as [|x p IH]; intros [|y s]; simpl; try congruence.
  destruct (Ascii.eqb x y) eqn:E; [|discriminate].
  apply Ascii.eqb_eq in E; subst. intros H. f_equal. auto.
Qed.

Lemma span_spec (p : ascii -> bool) (s a b : text) :
  span p s = (a, b) ->
  s = a ++ b /\ forallb p a = true
  /\ match b with [] => True | c :: _ => p c = false end.
Proof.
  revert a b; induction s as [|c s IH]; simpl; intros a b H.
  - inversion H; subst; auto.
  - destruct (p c) eqn:E.
    + destruct (span p s) as [a' b'] eqn:E'. inversion H; subst.
      destruct (IH _ _ eq_refl) as (-> & Ha & Hb). simpl. rewrite E. auto.
    + inversion H; subst. simpl. rewrite E. auto.
Qed.

Lemma drop_while_id (p : ascii -> bool) (s : text) :
  match s with [] => True | c :: _ => p c = false end -> drop_while p s = s.
Proof. destruct s as [|c s]; simpl; [reflexivity|]. intros ->. reflexivity. Qed.

(** ** The regular expression engine *)

Lemma pushes_cons (ing : bool) (g : text) (c : ascii) (run : text) :
  pushes ing (Re.push ing g c) run = pushes ing g (c :: run).
Proof.
  unfold pushes, Re.push. destruct ing; [|reflexivity].
  rewrite <- app_assoc. reflexivity.
Qed.

Lemma plus_loop_sound a ing k g s res :
  Re.plus_loop a ing k g s = Some res ->
  exists run tail, s = run ++ tail /\ run <> [] /\ forallb a run = true
                   /\ k (pushes ing g run) tail = Some res.
Proof.
  revert g; induction s as [|c s IH]; simpl; intros g H; [discriminate|].
  destruct (a c) eqn:Ea; [|discriminate].
  destruct (Re.plus_loop a ing k (Re.push ing g c) s) eqn:E.
  - inversion H; subst.
    destruct (IH _ E) as (run & tail & -> & _ & Hall & Hk).
    exists (c :: run), tail. rewrite <- pushes_cons. simpl. rewrite Ea.
    repeat split; auto. discriminate.
  - exists [c], s. simpl. rewrite Ea.
    split; [reflexivity|]. split; [discriminate|]. split; [reflexivity|].
    rewrite <- pushes_cons. unfold pushes.
    destruct ing; [rewrite app_nil_r|]; exact H.
Qed.

Lemma plus_loop_complete a ing k run :
  run <> [] -> forallb a run = true ->
  forall g s, k (pushes ing g run) s <> None ->
  Re.plus_loop a ing k g (run ++ s) <> None.
Proof.
  induction run as [|c run IH]; [congruence|].
  intros _ Hall g s Hk. simpl in Hall. apply andb_true_iff in Hall as [Ha Hall].
  simpl. rewrite Ha.
  destruct (Re.plus_loop a ing k (Re.push ing g c) (run ++ s)) eqn:E;
    [discriminate|].
  destruct run as [|c' run].
  - simpl in *. rewrite <- pushes_cons in Hk. unfold pushes in Hk.
    destruct ing; [rewrite app_nil_r in Hk|]; exact Hk.
  - exfalso. refine (IH _ Hall (Re.push ing g c) s _ E); [discriminate|].
    rewrite pushes_cons. exact Hk.
Qed.

Lemma exec_sound re : forall ing g s g' r,
  Re.exec re ing g s = Some (g', r) -> matches re ing g s g' r.
Proof.
  induction re as [|it re IH]; simpl; intros ing g s g' r H.
  - inversion H; subst. constructor.
  - destruct it.
    + destruct s as [|c s]; [discriminate|].
      destruct (a c) eqn:Ea; [|discriminate].
      constructor; auto.
    + apply plus_loop_sound in H as (run & tail & -> & Hne & Hall & Hk).
      constructor; auto.
    + constructor; auto.
    + constructor; auto.
Qed.

Lemma exec_complete re ing g s g' r :
  matches re ing g s g' r -> Re.exec re ing g s <> None.
Proof.
  induction 1; simpl; auto; try discriminate.
  - rewrite H. exact IHmatches.
  - apply plus_loop_complete; auto.
Qed.

Lemma search_sound re : forall s res,
  Re.search re s = Some res ->
  exists pre suf, s = pre ++ suf /\ Re.match_at re suf = Some res.
Proof.
  induction s as [|c s IH]; simpl; intros res H.
  - destruct (Re.match_at re []) eqn:E; [|discriminate].
    exists [], []. inversion H; subst; auto.
  - destruct (Re.match_at re (c :: s)) eqn:E.
    + exists [], (c :: s). inversion H; subst; auto.
    + destruct (IH _ H) as (pre & suf & -> & Hm).
      exists (c :: pre), suf; auto.
Qed.

Lemma search_complete re pre : forall suf,
  Re.match_at re suf <> None -> Re.search re (pre ++ suf) <> None.
Proof.
  induction pre as [|c pre IH]; simpl; intros suf H.
  - destruct suf; simpl; destruct (Re.match_at re _); congruence.
  - destruct (Re.match_at re (c :: pre ++ suf)); [discriminate|]. auto.
Qed.

(** ** The two patterns of the script *)

Ltac invert_matches :=
  repeat match goal with
         | H : matches (_ :: _) _ _ _ _ _ |- _ => inversion H; subst; clear H
         | H : matches [] _ _ _ _ _ |- _ => inversion H; subst; clear H
         | H : is_char _ _ = true |- _ => apply is_char_eq in H; subst
         end.

Lemma thrpt_match_sound (s g r : text) :
  Re.match_at THRPT_RE s = Some (g, r) ->
  exists ws,
    s = str "thrpt:" ++ ws ++ str "[" ++ g ++ str " Kelem" ++ r
    /\ ws <> [] /\ forallb is_space ws = true
    /\ g <> [] /\ forallb is_digit_or_dot g = true.
Proof.
  intros H. apply exec_sound in H.
  unfold THRPT_RE, Re.lit in H. simpl in H.
  invert_matches. unfold pushes, Re.push in *. simpl in *.
  invert_matches.
  eexists. split; [reflexivity|]. auto.
Qed.

Lemma thrpt_match_complete (ws g r : text) :
  ws <> [] -> forallb is_space ws = true ->
  g <> [] -> forallb is_digit_or_dot g = true ->
  Re.match_at THRPT_RE
    (str "thrpt:" ++ ws ++ str "[" ++ g ++ str " Kelem" ++ r) <> None.
Proof.
  intros Hws Hsp Hg Hnum.
  apply exec_complete with (g' := g) (r := r).
  unfold THRPT_RE, Re.lit. simpl.
  repeat (apply matches_one; [reflexivity|]).
  apply matches_plus; auto.
  apply matches_one; [reflexivity|].
  apply matches_open. apply matches_plus; auto.
  apply matches_close.
  repeat (apply matches_one; [reflexivity|]).
  apply matches_nil.
Qed.

Lemma search_thrpt_sound (line g r : text) :
  Re.search THRPT_RE line = Some (g, r) ->
  contains_thrpt line /\ g <> [] /\ forallb is_digit_or_dot g = true.
Proof.
  intros H. apply search_sound in H as (pre & suf & -> & H).
  apply thrpt_match_sound in H as (ws & -> & Hws & Hsp & Hg & Hnum).
  split; [|auto]. exists pre, ws, g, r. auto.
Qed.

Lemma search_thrpt_complete (line : text) :
  contains_thrpt line -> Re.search THRPT_RE line <> None.
Proof.
  intros (pre & ws & num & post & -> & Hws & Hsp & Hnum & Hdd).
  apply search_complete. apply thrpt_match_complete; auto.
Qed.

Lemma search_thrpt_none (line : text) :
  ~ contains_thrpt line -> Re.search THRPT_RE line = None.
Proof.
  intros H. destruct (Re.search THRPT_RE line) as [[g r]|] eqn:E; [|reflexivity].
  apply search_thrpt_sound in E as [E _]. contradiction.
Qed.

(** ** [float] on the text the throughput pattern captures *)

Lemma digit_or_dot_facts (c : ascii) :
  is_digit_or_dot c = true ->
  is_space c = false /\ is_char "_" c = false /\ is_char "-" c = false
  /\ is_char "+" c = false /\ lower c = c /\ Ascii.eqb c "i" = false
  /\ Ascii.eqb c "n" = false /\ is_char "e" c = false
  /\ (is_digit c = false -> c = "."%char).
Proof.
  destruct c as [[] [] [] [] [] [] [] []]; vm_compute; intros H;
    try discriminate H; repeat split; intros; try reflexivity; discriminate.
Qed.

Lemma forallb_rev {A : Type} (p : A -> bool) (l : list A) :
  forallb p (rev l) = forallb p l.
Proof.
  induction l as [|x l IH]; simpl; [reflexivity|].
  rewrite forallb_app, IH. simpl. rewrite andb_true_r. apply andb_comm.
Qed.

Lemma drop_while_token (g : text) :
  forallb is_digit_or_dot g = true -> drop_while is_space g = g.
Proof.
  intros H. apply drop_while_id. destruct g as [|c g]; [exact I|].
  simpl in H. apply andb_true_iff in H as [H _].
  apply digit_or_dot_facts in H. tauto.
Qed.

Lemma strip_token (g : text) :
  forallb is_digit_or_dot g = true -> strip g = g.
Proof.
  intros H. unfold strip. rewrite (drop_while_token g H).
  rewrite drop_while_token by (rewrite forallb_rev; exact H).
  apply rev_involutive.
Qed.

Lemma remove_underscores_token (g : text) : forall prev,
  forallb is_digit_or_dot g = true -> is_char "_" prev = false ->
  remove_underscores prev g = Some g.
Proof.
  induction g as [|c g IH]; cbn [remove_underscores forallb]; intros prev H Hp.
  - rewrite Hp. reflexivity.
  - apply andb_true_iff in H as [Hc H].
    pose proof (digit_or_dot_facts c Hc) as (_ & Hu & _).
    rewrite Hu, Hp. cbn [andb]. rewrite (IH c H Hu). reflexivity.
Qed.

Lemma dots_app (a b : text) : dots (a ++ b) = (dots a + dots b)%nat.
Proof. unfold dots. rewrite filter_app, length_app. reflexivity. Qed.

Lemma digit_not_dot (c : ascii) : is_digit c = true -> is_char "." c = false.
Proof.
  destruct c as [[] [] [] [] [] [] [] []]; vm_compute; intros H;
    try reflexivity; discriminate H.
Qed.

Lemma dots_digits (a : text) : forallb is_digit a = true -> dots a = 0%nat.
Proof.
  unfold dots. induction a as [|c a IH]; cbn [forallb filter];
    [reflexivity|].
  intros H. apply andb_true_iff in H as [Hc H].
  rewrite (digit_not_dot c Hc). auto.
Qed.

Lemma existsb_digits (a : text) :
  forallb is_digit a = true -> existsb is_digit a = negb (text_eqb a []).
Proof.
  destruct a as [|c a]; simpl; [reflexivity|].
  intros H. apply andb_true_iff in H as [-> _]. reflexivity.
Qed.

Lemma digits_are_tokens (a : text) :
  forallb is_digit a = true -> forallb is_digit_or_dot a = true.
Proof.
  intros H. rewrite forallb_forall in *. intros c Hc.
  unfold is_digit_or_dot. rewrite (H c Hc). reflexivity.
Qed.

(** What [float] does with a text of digits and points, in terms of the
    split at the first point. *)
Lemma py_float_token_split (g : text) :
  forallb is_digit_or_dot g = true ->
  exists ip fp rest,
    forallb is_digit ip = true /\ forallb is_digit fp = true
    /\ (g = ip /\ fp = [] /\ rest = []
        \/ g = ip ++ str "." ++ fp ++ rest
           /\ match rest with [] => True | c :: _ => c = "."%char end)
    /\ py_float g =
       match ip ++ fp, rest with
       | _ :: _, [] => Some (float_of_decimal false ip fp 0)
       | _, _ => None
       end.
Proof.
  intros H. unfold py_float.
  rewrite (strip_token g H), (remove_underscores_token g (chr 0) H eq_refl).
  assert (Hsign : take_sign g = (false, g)).
  { destruct g as [|c g]; [reflexivity|]. cbn [forallb] in H.
    unfold take_sign.
    apply andb_true_iff in H as [Hc _].
    apply digit_or_dot_facts in Hc as (_ & _ & -> & -> & _). reflexivity. }
  rewrite Hsign.
  assert (Hname : forall n, text_eqb (map lower g) (str n) = true ->
                            n <> "inf"%string /\ n <> "infinity"%string
                            /\ n <> "nan"%string).
  { intros n Hn. destruct g as [|c g].
    - destruct n; [|discriminate Hn]. repeat split; discriminate.
    - cbn [forallb] in H. apply andb_true_iff in H as [Hc _].
      apply digit_or_dot_facts in Hc as (_ & _ & _ & _ & Hl & Hi & Hn' & _).
      destruct n as [|a n]; [discriminate Hn|].
      cbn [map text_eqb str list_ascii_of_string] in Hn. rewrite Hl in Hn.
      apply andb_true_iff in Hn as [Hn _].
      apply Ascii.eqb_eq in Hn. subst a.
      repeat split; intros E; inversion E; subst c; discriminate. }
  destruct (text_eqb (map lower g) (str "inf")) eqn:E1;
    [destruct (Hname _ E1) as (F & _); congruence|].
  destruct (text_eqb (map lower g) (str "infinity")) eqn:E2;
    [destruct (Hname _ E2) as (_ & F & _); congruence|].
  destruct (text_eqb (map lower g) (str "nan")) eqn:E3;
    [destruct (Hname _ E3) as (_ & _ & F); congruence|].
  cbn [orb].
  destruct (span is_digit g) as [ip s2] eqn:Es.
  apply span_spec in Es as (-> & Hip & Hs2).
  rewrite forallb_app in H. apply andb_true_iff in H as [_ H].
  destruct s2 as [|c s2].
  - exists ip, [], []. rewrite !app_nil_r.
    split; [exact Hip|]. split; [reflexivity|]. split; [auto|].
    destruct ip; reflexivity.
  - cbn [forallb] in H. apply andb_true_iff in H as [Hc H].
    apply digit_or_dot_facts in Hc as (_ & _ & _ & _ & _ & _ & _ & _ & Hdot).
    specialize (Hdot Hs2). subst c.
    change (is_char "." ".") with true. cbv iota.
    destruct (span is_digit s2) as [fp s3] eqn:Ef.
    apply span_spec in Ef as (-> & Hfp & Hs3).
    rewrite forallb_app in H. apply andb_true_iff in H as [_ H].
    exists ip, fp, s3. split; [exact Hip|]. split; [exact Hfp|].
    destruct s3 as [|c s3].
    + split; [right; split; [reflexivity | exact I]|].
      destruct (ip ++ fp); reflexivity.
    + cbn [forallb] in H. apply andb_true_iff in H as [Hc H].
      pose proof (digit_or_dot_facts c Hc)
        as (_ & _ & _ & _ & Hl & _ & _ & He & Hdot).
      specialize (Hdot Hs3). subst c.
      split; [right; split; reflexivity|].
      unfold parse_exponent. rewrite Hl, He.
      destruct (ip ++ fp); reflexivity.
Qed.

(** [float] accepts a text of digits and points exactly when it has at
    most one point and at least one digit. *)
Lemma py_float_token (g : text) :
  forallb is_digit_or_dot g = true ->
  (decimal_number g = true -> exists f, py_float g = Some f)
  /\ (decimal_number g = false -> py_float g = None).
Proof.
  intros H.
  destruct (py_float_token_split g H)
    as (ip & fp & rest & Hip & Hfp & Hshape & ->).
  unfold decimal_number. rewrite H. simpl andb.
  destruct Hshape as [(-> & -> & ->) | (-> & Hrest)].
  - rewrite app_nil_r, (dots_digits ip Hip), (existsb_digits ip Hip).
    destruct ip; simpl; split; intros; try discriminate; eauto.
  - rewrite !dots_app, (dots_digits ip Hip), (dots_digits fp Hfp).
    rewrite !existsb_app, (existsb_digits ip Hip), (existsb_digits fp Hfp).
    destruct rest as [|c rest].
    + simpl. rewrite orb_false_r.
      destruct ip, fp; simpl; split; intros; try discriminate; eauto.
    + subst c. change (dots ("."%char :: rest)) with (S (dots rest)).
      change (dots (str ".")) with 1%nat.
      match goal with
      | |- context [(?n <=? 1)%nat] =>
          replace (n <=? 1)%nat with false
            by (symmetry; apply Nat.leb_gt; lia)
      end.
      cbn [andb]. split; [discriminate|]. destruct (ip ++ fp); reflexivity.
Qed.

(** ** The decoder never runs out of fuel *)

Lemma drop_while_length (p : ascii -> bool) (s : text) :
  (length (drop_while p s) <= length s)%nat.
Proof.
  induction s as [|c s IH]; simpl; [lia|]. destruct (p c); simpl; lia.
Qed.

Lemma skip_ws_length (s : text) : (length (skip_ws s) <= length s)%nat.
Proof. apply drop_while_length. Qed.

Lemma skip_ws_cons (s : text) (c : ascii) (r : text) :
  skip_ws s = c :: r -> (length r < length s)%nat.
Proof.
  intros H. pose proof (skip_ws_length s) as L. rewrite H in L.
  simpl in L. lia.
Qed.

Lemma span_length (p : ascii -> bool) (s a b : text) :
  span p s = (a, b) -> (length b <= length s)%nat.
Proof.
  intros H. apply span_spec in H as (-> & _). rewrite length_app. lia.
Qed.

Lemma strip_prefix_length (p s r : text) :
  strip_prefix p s = Some r -> (length r <= length s)%nat.
Proof.
  intros H. apply strip_prefix_some in H. subst. rewrite length_app. lia.
Qed.

Lemma scanstring_fuel (s : text) :
  scanstring s <> Starved
  /\ forall t r, scanstring s = Parsed (t, r) -> (length r < length s)%nat.
Proof.
  remember (length s) as n eqn:Hn. revert s Hn.
  induction n as [n IH] using lt_wf_ind. intros s Hn.
  assert (IH' : forall s', (length s' < length s)%nat ->
            scanstring s' <> Starved
            /\ forall t r, scanstring s' = Parsed (t, r) ->
                           (length r < length s')%nat).
  { intros s' L. apply (IH (length s')); [lia | reflexivity]. }
  clear IH. destruct s as [|c s]; cbn [scanstring].
  - split; [discriminate|]. intros t r H. discriminate H.
  - destruct (is_char DQ c).
    { split; [discriminate|]. intros t r H. inversion H; subst. simpl. lia. }
    destruct (is_char "\" c).
    + destruct s as [|e s2]; [split; [discriminate | intros ? ? H; discriminate H]|].
      destruct (is_char "u" e).
      * destruct s2 as [|h1 [|h2 [|h3 [|h4 s3]]]];
          try (split; [discriminate | intros ? ? H; discriminate H]).
        destruct (hex4 h1 h2 h3 h4) as [u|];
          [|split; [discriminate | intros ? ? H; discriminate H]].
        destruct (u <? 256);
          [|split; [discriminate | intros ? ? H; discriminate H]].
        destruct (IH' s3) as [N L]; [simpl; lia|].
        destruct (scanstring s3) as [[t r]| | |]; cbn [parse_bind];
          try (split; [discriminate | intros ? ? H; discriminate H]);
          [|congruence].
        split; [discriminate|]. intros t' r' H. inversion H; subst.
        specialize (L _ _ eq_refl). simpl. lia.
      * destruct (unescape e) as [ch|];
          [|split; [discriminate | intros ? ? H; discriminate H]].
        destruct (IH' s2) as [N L]; [simpl; lia|].
        destruct (scanstring s2) as [[t r]| | |]; cbn [parse_bind];
          try (split; [discriminate | intros ? ? H; discriminate H]);
          [|congruence].
        split; [discriminate|]. intros t' r' H. inversion H; subst.
        specialize (L _ _ eq_refl). simpl. lia.
    + destruct (code c <=? 31);
        [split; [discriminate | intros ? ? H; discriminate H]|].
      destruct (IH' s) as [N L]; [simpl; lia|].
      destruct (scanstring s) as [[t r]| | |]; cbn [parse_bind];
        try (split; [discriminate | intros ? ? H; discriminate H]);
        [|congruence].
      split; [discriminate|]. intros t' r' H. inversion H; subst.
      specialize (L _ _ eq_refl). simpl. lia.
Qed.

Lemma number_sign_length (s sg r : text) :
  number_sign s = (sg, r) -> (length r <= length s)%nat.
Proof.
  unfold number_sign. destruct s as [|c s]; [|destruct (is_char "-" c)];
    intros H; inversion H; subst; simpl; lia.
Qed.

Lemma number_int_length (s ip r : text) :
  number_int s = Some (ip, r) -> (length r <= length s)%nat.
Proof.
  unfold number_int. destruct s as [|c s]; [discriminate|].
  destruct (is_char "0" c).
  - intros H. inversion H; subst. simpl. lia.
  - destruct (between 49 57 c); [|discriminate].
    destruct (span is_digit s) as [ds r'] eqn:E. apply span_length in E.
    intros H. inversion H; subst. simpl. lia.
Qed.

Lemma number_frac_length (s f r : text) :
  number_frac s = (f, r) -> (length r <= length s)%nat.
Proof.
  unfold number_frac. destruct s as [|p s]; [intros H; inversion H; auto|].
  destruct (is_char "." p); [|intros H; inversion H; auto].
  destruct (span is_digit s) as [[|d ds] r'] eqn:E; apply span_length in E;
    intros H; inversion H; subst; simpl; lia.
Qed.

Lemma number_exp_length (s x r : text) :
  number_exp s = (x, r) -> (length r <= length s)%nat.
Proof.
  unfold number_exp. destruct s as [|e s]; [intros H; inversion H; auto|].
  destruct (is_char "e" (lower e)); [|intros H; inversion H; auto].
  assert (L : forall sg r0,
             match s with
             | c :: r' =>
                 if is_char "-" c || is_char "+" c then ([c], r') else ([], s)
             | [] => ([], [])
             end = (sg, r0) -> (length r0 <= length s)%nat).
  { intros sg r0. destruct s as [|c s']; [|destruct (_ || _)];
      intros H; inversion H; subst; simpl; lia. }
  destruct (match s with [] => _ | _ :: _ => _ end) as [sg r0].
  specialize (L sg r0 eq_refl).
  destruct (span is_digit r0) as [[|d ds] r'] eqn:E; apply span_length in E;
    intros H; inversion H; subst; simpl; lia.
Qed.

Lemma match_number_length (s i f e r : text) :
  match_number s = Some (i, f, e, r) -> (length r <= length s)%nat.
Proof.
  unfold match_number.
  destruct (number_sign s) as [sg s1] eqn:E1.
  destruct (number_int s1) as [[ip r1]|] eqn:E2; [|discriminate].
  destruct (number_frac r1) as [fr r2] eqn:E3.
  destruct (number_exp r2) as [ex r3] eqn:E4.
  intros H. inversion H; subst.
  apply number_sign_length in E1. apply number_int_length in E2.
  apply number_frac_length in E3. apply number_exp_length in E4. lia.
Qed.

Lemma scan_atom_fuel (s : text) :
  scan_atom s <> Starved
  /\ forall v r, scan_atom s = Parsed (v, r) -> (length r <= length s)%nat.
Proof.
  unfold scan_atom, scan_number.
  repeat match goal with
         | |- context [strip_prefix ?p s] =>
             let E := fresh "E" in
             destruct (strip_prefix p s) eqn:E;
             [apply strip_prefix_length in E|]
         end;
    try (split; [discriminate | intros ? ? H; inversion H; subst; lia]).
  all: destruct (match_number s) as [[[[i f] e] r]|] eqn:En;
    try (split; [discriminate | intros ? ? H; inversion H; subst; lia]).
  all: apply match_number_length in En;
    destruct (f ++ e); [|destruct (py_float _)];
    split; try discriminate; intros ? ? H; inversion H; subst; lia.
Qed.

Ltac fails_without_starving :=
  split; [discriminate | intros ? ? X; discriminate X].

Lemma decoder_fuel (n : nat) :
  (forall s, (2 * length s + 1 <= n)%nat ->
     scan_once n s <> Starved
     /\ forall v r, scan_once n s = Parsed (v, r) ->
                    (length r <= length s)%nat)
  /\ (forall acc s, (2 * length s + 2 <= n)%nat ->
        object_pairs n acc s <> Starved
        /\ forall v r, object_pairs n acc s = Parsed (v, r) ->
                       (length r <= length s)%nat)
  /\ (forall acc s, (2 * length s + 2 <= n)%nat ->
        array_items n acc s <> Starved
        /\ forall v r, array_items n acc s = Parsed (v, r) ->
                       (length r <= length s)%nat).
Proof.
  induction n as [|f (IHs & IHo & IHa)].
  - repeat split; intros; lia.
  - split; [|split].
    + (* scan_once *)
      intros s Hn. destruct s as [|c s']; cbn [scan_once];
        [fails_without_starving|].
      simpl in Hn. destruct (is_char DQ c).
      { destruct (scanstring_fuel s') as [N L].
        destruct (scanstring s') as [[t r]| | |]; cbn [parse_bind];
          try fails_without_starving; [|congruence].
        split; [discriminate|]. intros v r' H. inversion H; subst.
        specialize (L _ _ eq_refl). simpl. lia. }
      destruct (is_char "{" c).
      { destruct (skip_ws s') as [|c1 s1] eqn:Ew; [fails_without_starving|].
        apply skip_ws_cons in Ew.
        destruct (is_char "}" c1).
        { split; [discriminate|]. intros v r H. inversion H; subst.
          simpl. lia. }
        destruct (is_char DQ c1); [|fails_without_starving].
        destruct (IHo [] s1) as [N L]; [lia|].
        split; [exact N|]. intros v r H. specialize (L _ _ H). simpl. lia. }
      destruct (is_char "[" c).
      { destruct (skip_ws s') as [|c1 s1] eqn:Ew; [fails_without_starving|].
        apply skip_ws_cons in Ew.
        destruct (is_char "]" c1).
        { split; [discriminate|]. intros v r H. inversion H; subst.
          simpl. lia. }
        destruct (IHa [] (c1 :: s1)) as [N L]; [simpl; lia|].
        split; [exact N|]. intros v r H. specialize (L _ _ H).
        simpl in *. lia. }
      apply scan_atom_fuel.
    + (* object_pairs *)
      intros acc s Hn. cbn [object_pairs].
      destruct (scanstring_fuel s) as [N L].
      destruct (scanstring s) as [[key s1]| | |]; cbn [parse_bind];
        try fails_without_starving; [|congruence].
      specialize (L _ _ eq_refl).
      destruct (skip_ws s1) as [|c s2] eqn:E1; [fails_without_starving|].
      apply skip_ws_cons in E1.
      destruct (is_char ":" c); [|fails_without_starving].
      pose proof (skip_ws_length s2) as E2.
      destruct (IHs (skip_ws s2)) as [N2 L2]; [lia|].
      destruct (scan_once f (skip_ws s2)) as [[v s3]| | |]; cbn [parse_bind];
        try fails_without_starving; [|congruence].
      specialize (L2 _ _ eq_refl).
      destruct (skip_ws s3) as [|c3 s4] eqn:E3; [fails_without_starving|].
      apply skip_ws_cons in E3.
      destruct (is_char "}" c3).
      { split; [discriminate|]. intros v' r H. inversion H; subst. lia. }
      destruct (is_char "," c3); [|fails_without_starving].
      destruct (skip_ws s4) as [|c5 s5] eqn:E4; [fails_without_starving|].
      apply skip_ws_cons in E4.
      destruct (is_char DQ c5); [|fails_without_starving].
      destruct (IHo (dict_set acc key v) s5) as [N5 L5]; [lia|].
      split; [exact N5|]. intros v' r H. specialize (L5 _ _ H). lia.
    + (* array_items *)
      intros acc s Hn. cbn [array_items].
      destruct (IHs s) as [N L]; [lia|].
      destruct (scan_once f s) as [[v s1]| | |]; cbn [parse_bind];
        try fails_without_starving; [|congruence].
      specialize (L _ _ eq_refl).
      destruct (skip_ws s1) as [|c s2] eqn:E1; [fails_without_starving|].
      apply skip_ws_cons in E1.
      destruct (is_char "]" c).
      { split; [discriminate|]. intros v' r H. inversion H; subst. lia. }
      destruct (is_char "," c); [|fails_without_starving].
      pose proof (skip_ws_length s2) as E2.
      destruct (IHa (acc ++ [v]) (skip_ws s2)) as [N2 L2]; [lia|].
      split; [exact N2|]. intros v' r H. specialize (L2 _ _ H). lia.
Qed.

(** [json_loads] gives the decoder enough fuel: its answer is a value,
    a [JSONDecodeError], or [Unmodelled], never [Starved]. *)
Lemma json_loads_not_starved (s : text) : json_loads s <> Starved.
Proof.
  unfold json_loads.
  destruct (decoder_fuel (S (2 * length s))) as [H _].
  destruct (H (skip_ws s)) as [N _].
  { pose proof (skip_ws_length s). lia. }
  destruct (scan_once _ (skip_ws s)) as [[v rest]| | |]; cbn [parse_bind];
    try discriminate; [|congruence].
  destruct (skip_ws rest); discriminate.
Qed.

(** A run leaves the model only through a [\u] escape above U+00FF. *)
Lemma outside_model_only_unmodelled (m : machine) (line : text) :
  feed m line = inr OutsideModel ->
  record m = PNone /\ json_loads (normalize line) = Unmodelled.
Proof.
  unfold feed, config_line, throughput_line. intros H.
  pose proof (json_loads_not_starved (normalize line)) as N.
  destruct (record m);
    repeat match type of H with
           | context [match ?x with _ => _ end] => destruct x eqn:?
           end;
    try discriminate H; try congruence; auto.
Qed.

(** ** Dictionaries and [DictWriter] *)

Lemma text_eqb_sym (a b : text) : text_eqb a b = text_eqb b a.
Proof.
  destruct (text_eqb a b) eqn:E.
  - apply text_eqb_eq in E. subst. symmetry. apply text_eqb_refl.
  - symmetry. apply text_eqb_neq. apply text_eqb_neq in E. congruence.
Qed.

Lemma dict_get_set (d : dict) (k k' : text) (v : pyval) :
  dict_get (dict_set d k v) k' =
  if text_eqb k' k then Some v else dict_get d k'.
Proof.
  induction d as [|[k0 v0] d IH]; simpl.
  - rewrite (text_eqb_sym k k'). reflexivity.
  - destruct (text_eqb k0 k) eqn:E; simpl.
    + apply text_eqb_eq in E. subst k0.
      rewrite (text_eqb_sym k k'). destruct (text_eqb k' k); reflexivity.
    + destruct (text_eqb k0 k') eqn:E'; [|exact IH].
      apply text_eqb_eq in E'. subst k0.
      rewrite E. reflexivity.
Qed.

Lemma dict_keys_set (d : dict) (k : text) (v : pyval) (k' : text) :
  In k' (dict_keys (dict_set d k v)) <-> In k' (dict_keys d) \/ k' = k.
Proof.
  unfold dict_keys. induction d as [|[k0 v0] d IH]; simpl.
  - intuition.
  - destruct (text_eqb k0 k) eqn:E; simpl.
    + apply text_eqb_eq in E. subst k0. intuition.
    + rewrite IH. intuition.
Qed.

Lemma K_is_field_name : is_field_name K_UPDATES_PER_SEC = true.
Proof. reflexivity. Qed.

Lemma wrong_fields_nil (d : dict) :
  wrong_fields d = [] <-> forallb is_field_name (dict_keys d) = true.
Proof.
  unfold wrong_fields. induction (dict_keys d) as [|k ks IH]; simpl.
  - tauto.
  - destruct (is_field_name k); simpl; [exact IH|].
    split; discriminate.
Qed.

Lemma field_names_after_set (d : dict) (v : pyval) :
  forallb is_field_name (dict_keys (dict_set d K_UPDATES_PER_SEC v))
  = forallb is_field_name (dict_keys d).
Proof.
  destruct (forallb is_field_name (dict_keys d)) eqn:E.
  - rewrite forallb_forall in *. intros k Hk.
    apply dict_keys_set in Hk as [Hk | ->]; [auto | apply K_is_field_name].
  - destruct (forallb is_field_name (dict_keys (dict_set _ _ _))) eqn:E';
      [|reflexivity].
    rewrite <- E. symmetry. rewrite forallb_forall in *. intros k Hk.
    apply E'. apply dict_keys_set. auto.
Qed.

(** The row of a record with the throughput filled in. *)
Lemma dict_to_list_set (d : dict) (f : float) :
  dict_to_list (dict_set d K_UPDATES_PER_SEC (PFloat f)) =
  if forallb is_field_name (dict_keys d)
  then Some (map (cell_of d f) FIELD_NAMES)
  else None.
Proof.
  unfold dict_to_list.
  pose proof (wrong_fields_nil (dict_set d K_UPDATES_PER_SEC (PFloat f))) as W.
  rewrite field_names_after_set in W.
  destruct (wrong_fields _) as [|k ks].
  - rewrite (proj1 W eq_refl). f_equal. apply map_ext. intros k.
    unfold cell_of. rewrite dict_get_set.
    destruct (text_eqb k K_UPDATES_PER_SEC); reflexivity.
  - destruct (forallb is_field_name (dict_keys d)); [|reflexivity].
    destruct W as [_ W]. discriminate (W eq_refl).
Qed.

(** ** One step of the loop *)

Lemma feed_not_exit0 (m : machine) (line : text) : feed m line <> inr Exit0.
Proof.
  unfold feed, config_line, throughput_line.
  destruct (record m); repeat
    match goal with
    | |- context [match ?x with _ => _ end] => destruct x
    end; discriminate.
Qed.

Lemma feed_config (m : machine) (line : text) :
  record m = PNone -> feed m line = config_line m line.
Proof. unfold feed. intros ->. reflexivity. Qed.

Lemma feed_throughput (m : machine) (line : text) :
  record m <> PNone -> feed m line = throughput_line m line.
Proof. unfold feed. destruct (record m); congruence. Qed.

(** What a step writes: nothing on a config line, at most one row on a
    throughput line, and then the record is cleared. *)
Lemma feed_writes (m m' : machine) (line : text) :
  feed m line = inl m' ->
  (record m = PNone /\ out m' = out m
   /\ json_loads (normalize line) = Parsed (record m'))
  \/ (exists d g r f,
        record m = PDict d
        /\ Re.search THRPT_RE line = Some (g, r)
        /\ py_float g = Some f
        /\ forallb is_field_name (dict_keys d) = true
        /\ record m' = PNone
        /\ out m' = out m ++ [Row (map (cell_of d f) FIELD_NAMES)]).
Proof.
  intros H. destruct (record m) eqn:Er.
  1: { left. rewrite feed_config in H by exact Er. unfold config_line in H.
       destruct (json_loads (normalize line)); inversion H; subst; auto. }
  all: right; rewrite feed_throughput in H by congruence;
    unfold throughput_line in H; rewrite Er in H;
    destruct (Re.search THRPT_RE line) as [[g r]|] eqn:Es; [|discriminate H];
    destruct (py_float g) as [fl|] eqn:Efl; [|discriminate H];
    unfold setitem in H; try discriminate H.
  rewrite dict_to_list_set in H.
  destruct (forallb is_field_name (dict_keys d)) eqn:Ek; [|discriminate H].
  injection H as <-. exists d, g, r, fl. cbn [record out].
  repeat split; auto.
Qed.

Lemma throughput_row (m : machine) (line : text) (d : dict) (g r : text)
  (f : float) :
  record m = PDict d ->
  Re.search THRPT_RE line = Some (g, r) ->
  py_float g = Some f ->
  feed m line =
  if forallb is_field_name (dict_keys d)
  then inl {| record := PNone;
              out := out m ++ [Row (map (cell_of d f) FIELD_NAMES)] |}
  else inr (Uncaught ExtraFieldsValueError).
Proof.
  intros Er Es Ef. rewrite feed_throughput by congruence.
  unfold throughput_line. rewrite Es, Ef, Er. simpl.
  rewrite dict_to_list_set.
  destruct (forallb is_field_name (dict_keys d)); reflexivity.
Qed.

(** ** Runs *)

Lemma run_from_app (pre rest : list text) : forall m m',
  run_from m pre = (m', Exit0) ->
  run_from m (pre ++ rest) = run_from m' rest.
Proof.
  induction pre as [|line pre IH]; simpl; intros m m' H.
  - inversion H; subst. reflexivity.
  - destruct (feed m line) as [m1|o] eqn:Ef; [auto|].
    inversion H; subst. destruct (feed_not_exit0 _ _ Ef).
Qed.

Lemma rows_app (m : machine) (o : list event) (cells : list pyval) :
  rows {| record := record m; out := o ++ [Row cells] |}
  = rows {| record := record m; out := o |} ++ [cells].
Proof. unfold rows. simpl. rewrite flat_map_app. reflexivity. Qed.

Lemma adjacent_cons (l : text) (lines : list text) (cells : list pyval) :
  adjacent lines cells -> adjacent (l :: lines) cells.
Proof.
  intros (pre & c & t & post & -> & H). exists (l :: pre), c, t, post. auto.
Qed.

Lemma pending_le_1 (m : machine) : (pending m <= 1)%nat.
Proof. unfold pending. destruct (record m); lia. Qed.

Lemma rows_of_events (m : machine) (new : list (list pyval)) :
  out m = Header :: map Row new -> rows m = new.
Proof.
  unfold rows. intros ->. simpl.
  induction new as [|c new IH]; simpl; [reflexivity|]. f_equal. exact IH.
Qed.

Ltac pending_case Hprov line rest :=
  destruct rest as [|t rest];
  [ subst; apply Forall_nil
  | destruct Hprov as [-> | (d' & g & r & f & tl & Ed & Es & Ef & -> & Htl)];
    [ apply Forall_nil
    | first
        [ discriminate Ed
        | injection Ed as <-; apply Forall_cons;
          [ exists [], line, t, rest; split; [reflexivity|];
            eexists; exists g, r, f; repeat split; eassumption
          | apply Forall_impl with (2 := Htl); intros c Hc;
            apply adjacent_cons, adjacent_cons, Hc ] ] ] ].

(** The invariant of the loop, from any state [m0]: only rows are
    appended, each row takes two lines, and a row comes from the pending
    record and the next line or from two consecutive lines. *)
Lemma run_from_invariant (lines : list text) : forall m0,
  exists new,
    out (fst (run_from m0 lines)) = out m0 ++ map Row new
    /\ (2 * length new + pending (fst (run_from m0 lines))
        <= length lines + pending m0)%nat
    /\ match record m0 with
       | PNone => Forall (adjacent lines) new
       | _ =>
           match lines with
           | [] => new = []
           | t :: rest =>
               new = []
               \/ exists d g r f tl,
                   record m0 = PDict d
                   /\ Re.search THRPT_RE t = Some (g, r)
                   /\ py_float g = Some f
                   /\ new = map (cell_of d f) FIELD_NAMES :: tl
                   /\ Forall (adjacent rest) tl
           end
       end.
Proof.
  induction lines as [|line rest IH]; intros m0.
  - exists []. simpl. rewrite app_nil_r. split; [reflexivity|].
    split; [lia|]. destruct (record m0); auto.
  - simpl. destruct (feed m0 line) as [m1|o] eqn:Ef.
    + destruct (IH m1) as (new & Hout & Hcount & Hprov).
      apply feed_writes in Ef
        as [(Er & Ho & Hl) | (d & g & r & f & Er & Es & Efl & _ & Er1 & Ho)].
      * exists new. rewrite Hout, Ho. split; [reflexivity|].
        pose proof (pending_le_1 m1).
        split; [unfold pending at 2; rewrite Er; lia|].
        rewrite Er. destruct (record m1) as [|b|z|fl|s|l|d1] eqn:Er1;
          [ apply Forall_impl with (2 := Hprov); apply adjacent_cons
          | pending_case Hprov line rest ..].
      * rewrite Er1 in Hprov. unfold pending in Hcount at 2.
        rewrite Er1 in Hcount.
        exists (map (cell_of d f) FIELD_NAMES :: new).
        rewrite Hout, Ho, <- app_assoc. split; [reflexivity|].
        assert (Hp : pending m0 = 1%nat)
          by (unfold pending; rewrite Er; reflexivity).
        split; [cbn [length]; lia|]. rewrite Er. right.
        exists d, g, r, f, new. auto.
    + exists []. simpl. rewrite app_nil_r. split; [reflexivity|].
      split; [lia|]. destruct (record m0); auto.
Qed.

(** ** Claims about the loop *)

(** C3. At every point of a run at most one record is pending; every row
    written accounts for two lines read, and comes from a config line
    directly followed by a throughput line; a config line read last,
    with no throughput line after it, is not written. *)
Theorem rows_come_from_pairs (lines : list text) :
  (pending (fst (main lines)) <= 1)%nat
  /\ (2 * length (rows (fst (main lines))) + pending (fst (main lines))
      <= length lines)%nat
  /\ Forall (adjacent lines) (rows (fst (main lines)))
  /\ (forall cfg,
        snd (main lines) = Exit0 ->
        record (fst (main lines)) = PNone ->
        rows (fst (main (lines ++ [cfg]))) = rows (fst (main lines))).
Proof.
  unfold main.
  destruct (run_from_invariant lines initial) as (new & Hout & Hcount & Hprov).
  rewrite (rows_of_events _ new Hout).
  split; [apply pending_le_1|].
  split; [change (pending initial) with 0%nat in Hcount; lia|].
  split; [exact Hprov|].
  intros cfg Ho Er.
  destruct (run_from initial lines) as [m o] eqn:E. simpl in *. subst o.
  rewrite (run_from_app lines [cfg] initial m E). simpl.
  destruct (feed m cfg) as [m1|o] eqn:Ef; simpl.
  - apply feed_writes in Ef as [(_ & Ho & _) | (d & _ & _ & _ & Ed & _)];
      [|congruence].
    apply rows_of_events. rewrite Ho. exact Hout.
  - apply rows_of_events. exact Hout.
Qed.

(** C8. The header is the first thing written and is written once,
    whatever the input; everything after it is a row. Its text lists the
    eight field names in the declared order. *)
Theorem header_first_and_once (lines : list text) :
  out (fst (main lines)) = Header :: map Row (rows (fst (main lines)))
  /\ length (filter is_header (out (fst (main lines)))) = 1%nat
  /\ render Header =
     str "name,set_size_m,batch_size_k,arity,total_memory_m,num_hashing_per_batch,disk_bytes_per_update,k_updates_per_sec"
     ++ CRLF
  /\ main [] = ({| record := PNone; out := [Header] |}, Exit0).
Proof.
  unfold main.
  destruct (run_from_invariant lines initial) as (new & Hout & _).
  rewrite (rows_of_events _ new Hout). rewrite Hout.
  split; [reflexivity|]. split; [|split; reflexivity].
  change (out initial) with [Header]. cbn [app filter is_header length].
  f_equal. clear Hout. induction new as [|c new IH]; [reflexivity | exact IH].
Qed.

(** C6. When the input ends right after a config line, that record is
    not written, nothing is raised and the exit status is 0. *)
Theorem eof_after_config (pre : list text) (cfg : text) (m : machine)
  (v : pyval) :
  main pre = (m, Exit0) ->
  record m = PNone ->
  json_loads (normalize cfg) = Parsed v ->
  main (pre ++ [cfg]) = ({| record := v; out := out m |}, Exit0)
  /\ exit_code (snd (main (pre ++ [cfg]))) = Some 0.
Proof.
  unfold main. intros Hpre Er Hv.
  rewrite (run_from_app pre [cfg] initial m Hpre). simpl.
  rewrite feed_config by exact Er. unfold config_line. rewrite Hv.
  split; reflexivity.
Qed.

(** C2. While a throughput line is awaited, a line without the pattern
    ends the run at once: the statement [raise "Didn't match"] raises,
    the pending record is not written, the remaining lines are not read
    and the exit status is not 0. *)
Theorem no_match_is_fatal (pre : list text) (line : text) (rest : list text)
  (m : machine) :
  main pre = (m, Exit0) ->
  record m <> PNone ->
  ~ contains_thrpt line ->
  main (pre ++ line :: rest) = (m, Uncaught RaiseStr)
  /\ exit_code (snd (main (pre ++ line :: rest))) = Some 1.
Proof.
  unfold main. intros Hpre Er Hno.
  rewrite (run_from_app pre (line :: rest) initial m Hpre). simpl.
  rewrite feed_throughput by exact Er. unfold throughput_line.
  rewrite (search_thrpt_none line Hno). split; reflexivity.
Qed.

Lemma decimal_number_float (g : text) :
  decimal_number g = true -> exists f, py_float g = Some f.
Proof.
  intros H. apply py_float_token; [|exact H].
  unfold decimal_number in H.
  apply andb_true_iff in H as [H _]. apply andb_true_iff in H as [H _].
  exact H.
Qed.

Lemma run_pairs (pairs : list (text * text)) : forall o0,
  Forall (fun p => exists d g, valid_config (fst p) d
                               /\ valid_throughput (snd p) g) pairs ->
  exists rs,
    run_from {| record := PNone; out := o0 |} (interleave pairs)
    = ({| record := PNone; out := o0 ++ map Row rs |}, Exit0)
    /\ length rs = length pairs
    /\ Forall2 (fun p cells => from_pair (fst p) (snd p) cells) pairs rs.
Proof.
  induction pairs as [|[c t] pairs IH]; intros o0 H.
  - exists []. simpl. rewrite app_nil_r. auto.
  - inversion H as [|p ps Hp Hps]; subst. clear H.
    destruct Hp as (d & g & [Hc Hk] & [[r Hs] Hg]). simpl in Hc, Hk, Hs.
    destruct (decimal_number_float g Hg) as [f Hf].
    destruct (IH (o0 ++ [Row (map (cell_of d f) FIELD_NAMES)]) Hps)
      as (rs & Hrun & Hlen & Hall).
    exists (map (cell_of d f) FIELD_NAMES :: rs).
    cbn [interleave flat_map fst snd app run_from].
    rewrite feed_config by reflexivity. unfold config_line. rewrite Hc.
    cbn [out].
    rewrite (throughput_row {| record := PDict d; out := o0 |} t d g r f
               eq_refl Hs Hf), Hk.
    cbn [out]. change (flat_map _ pairs) with (interleave pairs).
    rewrite Hrun, <- app_assoc. split; [reflexivity|].
    split; [simpl; congruence|]. constructor; [|exact Hall].
    exists d, g, r, f. auto.
Qed.

(** C4. For alternating valid config lines and matching throughput
    lines, one row is written per pair, in the order of the input, and
    the run ends normally. *)
Theorem one_row_per_pair (pairs : list (text * text)) :
  Forall (fun p => exists d g, valid_config (fst p) d
                               /\ valid_throughput (snd p) g) pairs ->
  exists rs,
    main (interleave pairs)
    = ({| record := PNone; out := Header :: map Row rs |}, Exit0)
    /\ length rs = length pairs
    /\ Forall2 (fun p cells => from_pair (fst p) (snd p) cells) pairs rs.
Proof. intros H. exact (run_pairs pairs [Header] H). Qed.

(** C5, as the code has it. The text captured on an accepted line is a
    non-empty run of digits and points; [float] accepts it exactly when
    it has at most one point and at least one digit, and raises
    [ValueError] otherwise. *)
Theorem captured_number (line g r : text) :
  Re.search THRPT_RE line = Some (g, r) ->
  g <> [] /\ forallb is_digit_or_dot g = true
  /\ (decimal_number g = true -> exists f, py_float g = Some f)
  /\ (decimal_number g = false -> py_float g = None).
Proof.
  intros H. apply search_thrpt_sound in H as (_ & Hne & Hdd).
  split; [exact Hne|]. split; [exact Hdd|]. apply py_float_token, Hdd.
Qed.

(** C10. When the pending record has a key outside the eight field
    names, writing its row raises [ValueError] and nothing is written;
    when all its keys are field names the row is written, and a field
    the record lacks gives an empty cell. *)
Theorem extra_and_missing_fields (m : machine) (line : text) (d : dict)
  (g r : text) (f : float) :
  record m = PDict d ->
  Re.search THRPT_RE line = Some (g, r) ->
  py_float g = Some f ->
  (forallb is_field_name (dict_keys d) = false ->
   feed m line = inr (Uncaught ExtraFieldsValueError)
   /\ exit_code (Uncaught ExtraFieldsValueError) = Some 1)
  /\ (forallb is_field_name (dict_keys d) = true ->
      feed m line
      = inl {| record := PNone;
               out := out m ++ [Row (map (cell_of d f) FIELD_NAMES)] |}
      /\ forall k, k <> K_UPDATES_PER_SEC -> dict_get d k = None ->
                   cell_of d f k = PStr []
                   /\ csv_field (field_text (cell_of d f k)) = []).
Proof.
  intros Er Es Ef. rewrite (throughput_row m line d g r f Er Es Ef).
  split; intros ->; split; try reflexivity.
  intros k Hk Hget. unfold cell_of.
  apply text_eqb_neq in Hk. rewrite Hk, Hget. split; reflexivity.
Qed.

(** ** Two runs on the same input *)





(** The environment is not idle: on a record with two keys that are no
    field names, the two orders of iteration give two different
    messages on standard error, while the header is all that is written
    to standard output in both. *)
Lemma message_depends_on_environment :
  lawful in_order /\ lawful in_reverse
  /\ message (run in_order TWO_EXTRA_KEYS)
     = Some (str "dict contains fields not in fieldnames: 'x', 'y'")
  /\ message (run in_reverse TWO_EXTRA_KEYS)
     = Some (str "dict contains fields not in fieldnames: 'y', 'x'")
  /\ stdout (run in_order TWO_EXTRA_KEYS) = render Header
  /\ stdout (run in_reverse TWO_EXTRA_KEYS) = render Header.
Proof.
  split; [intros l; apply Permutation_refl|].
  split; [intros l; apply Permutation_rev|].
  vm_compute. repeat split.
Qed.


(** ** The examples *)

(** C1, as stated: the config line of the specification has no braces,
    so [json.loads] rejects it and no row is written. *)
Lemma bench1_without_braces_rejected :
  main [BENCH1_LINE; THRPT_LINE]
  = ({| record := PNone; out := [Header] |}, Uncaught JSONDecodeError)
  /\ rows (fst (main [BENCH1_LINE; THRPT_LINE])) = []
  /\ program (BENCH1_LINE ++ THRPT_LINE)
     = (render Header, Uncaught JSONDecodeError).
Proof. vm_compute. repeat split. Qed.

(** C1, with the config line inside braces: exactly one row, whose
    first seven fields are the record's and whose last is the float
    123.45. *)
Theorem bench1_row :
  lines_of [] (BENCH1_BRACED ++ THRPT_LINE) = [BENCH1_BRACED; THRPT_LINE]
  /\ json_loads (normalize BENCH1_BRACED) = Parsed (PDict BENCH1_RECORD)
  /\ py_float (str "123.45") = Some F_123_45
  /\ main [BENCH1_BRACED; THRPT_LINE]
     = ({| record := PNone;
           out := [Header;
                   Row (map snd BENCH1_RECORD ++ [PFloat F_123_45])] |},
        Exit0)
  /\ program (BENCH1_BRACED ++ THRPT_LINE)
     = (render Header ++ str "bench1,10,4,2,64,3,8,123.45" ++ CRLF, Exit0).
Proof. vm_compute. repeat split. Qed.

Lemma no_match_is_fatal_witness :
  main ([BENCH1_BRACED] ++ MELEM_LINE :: [THRPT_LINE])
  = (fst (main [BENCH1_BRACED]), Uncaught RaiseStr)
  /\ exit_code (snd (main ([BENCH1_BRACED] ++ MELEM_LINE :: [THRPT_LINE])))
     = Some 1.
Proof.
  apply (no_match_is_fatal [BENCH1_BRACED] MELEM_LINE [THRPT_LINE]
           (fst (main [BENCH1_BRACED]))).
  - vm_compute. reflexivity.
  - vm_compute. discriminate.
  - intros H. apply search_thrpt_complete in H. apply H.
    vm_compute. reflexivity.
Defined.

Lemma eof_after_config_witness :
  main ([] ++ [BENCH1_BRACED])
  = ({| record := PDict BENCH1_RECORD; out := out initial |}, Exit0)
  /\ exit_code (snd (main ([] ++ [BENCH1_BRACED]))) = Some 0.
Proof.
  apply (eof_after_config [] BENCH1_BRACED initial (PDict BENCH1_RECORD)).
  - reflexivity.
  - reflexivity.
  - vm_compute. reflexivity.
Defined.

Lemma one_row_per_pair_witness :
  exists rs,
    main (interleave [(BENCH1_BRACED, THRPT_LINE);
                      (str "{name: 'b2', arity: 4}" ++ LF,
                       str "time: [1 2 3] thrpt:  [7 Kelem/s 8 Kelem/s]" ++ LF)])
    = ({| record := PNone; out := Header :: map Row rs |}, Exit0)
    /\ length rs = 2%nat
    /\ Forall2 (fun p cells => from_pair (fst p) (snd p) cells)
         [(BENCH1_BRACED, THRPT_LINE);
          (str "{name: 'b2', arity: 4}" ++ LF,
           str "time: [1 2 3] thrpt:  [7 Kelem/s 8 Kelem/s]" ++ LF)] rs.
Proof.
  apply (one_row_per_pair
           [(BENCH1_BRACED, THRPT_LINE);
            (str "{name: 'b2', arity: 4}" ++ LF,
             str "time: [1 2 3] thrpt:  [7 Kelem/s 8 Kelem/s]" ++ LF)]).
  repeat constructor.
  - exists BENCH1_RECORD, (str "123.45").
    split; split; try (vm_compute; reflexivity).
    exists (str "/s]" ++ LF). vm_compute. reflexivity.
  - exists [(str "name", PStr (str "b2")); (str "arity", PInt 4)], (str "7").
    split; split; try (vm_compute; reflexivity).
    exists (str "/s 8 Kelem/s]" ++ LF). vm_compute. reflexivity.
Defined.

(** C5, as stated: [thrpt: [1.2.3 Kelem/s]] is accepted by the pattern,
    the captured text has two points and [float] rejects it. *)
Lemma two_points_accepted_then_rejected :
  Re.search THRPT_RE TWO_POINTS_LINE = Some (str "1.2.3", str "/s]" ++ LF)
  /\ dots (str "1.2.3") = 2%nat
  /\ py_float (str "1.2.3") = None
  /\ main [BENCH1_BRACED; TWO_POINTS_LINE]
     = ({| record := PDict BENCH1_RECORD; out := [Header] |},
        Uncaught FloatValueError).
Proof. vm_compute. repeat split. Qed.

Lemma captured_number_witness :
  str "123.45" <> []
  /\ forallb is_digit_or_dot (str "123.45") = true
  /\ (decimal_number (str "123.45") = true ->
      exists f, py_float (str "123.45") = Some f)
  /\ (decimal_number (str "123.45") = false -> py_float (str "123.45") = None).
Proof.
  apply (captured_number THRPT_LINE (str "123.45") (str "/s]" ++ LF)).
  vm_compute. reflexivity.
Defined.

Lemma extra_and_missing_fields_witness :
  let m := {| record := PDict [(str "nam", PStr (str "x"))];
              out := [Header] |} in
  let d := [(str "nam", PStr (str "x"))] in
  (forallb is_field_name (dict_keys d) = false ->
   feed m THRPT_LINE = inr (Uncaught ExtraFieldsValueError)
   /\ exit_code (Uncaught ExtraFieldsValueError) = Some 1)
  /\ (forallb is_field_name (dict_keys d) = true ->
      feed m THRPT_LINE
      = inl {| record := PNone;
               out := out m ++ [Row (map (cell_of d F_123_45) FIELD_NAMES)] |}
      /\ forall k, k <> K_UPDATES_PER_SEC -> dict_get d k = None ->
                   cell_of d F_123_45 k = PStr []
                   /\ csv_field (field_text (cell_of d F_123_45 k)) = []).
Proof.
  intros m d.
  apply (extra_and_missing_fields m THRPT_LINE d (str "123.45")
           (str "/s]" ++ LF) F_123_45).
  - reflexivity.
  - vm_compute. reflexivity.
  - vm_compute. reflexivity.
Defined.


(** ** A value with an apostrophe *)


Lemma replace_id (a b : ascii) (s : text) :
  forallb (fun c => negb (Ascii.eqb c a)) s = true -> replace a b s = s.
Proof.
  unfold replace. induction s as [|c s IH]; simpl; [reflexivity|].
  intros H. apply andb_true_iff in H as [Hc H].
  apply negb_true_iff in Hc. rewrite Hc, (IH H). reflexivity.
Qed.

Lemma replace_app (a b : ascii) (s t : text) :
  replace a b (s ++ t) = replace a b s ++ replace a b t.
Proof. apply map_app. Qed.

Lemma plain_facts (c : ascii) :
  is_plain c = true ->
  is_char DQ c = false /\ is_char "\" c = false /\ (code c <=? 31) = false
  /\ Ascii.eqb c SQ = false /\ c <> ":"%char
  /\ (is_json_ws c = false -> is_char "}" c = false /\ is_char "," c = false).
Proof.
  destruct c as [[] [] [] [] [] [] [] []]; vm_compute; intros H;
    try discriminate H; repeat split; intros; try reflexivity;
    try discriminate.
Qed.

Lemma plain_no_apostrophe (s : text) :
  forallb is_plain s = true ->
  forallb (fun c => negb (Ascii.eqb c SQ)) s = true.
Proof.
  intros H. rewrite forallb_forall in *. intros c Hc.
  destruct (plain_facts c (H c Hc)) as (_ & _ & _ & -> & _). reflexivity.
Qed.

Lemma plain_no_colon (s : text) :
  forallb is_plain s = true -> ~ In ":"%char s.
Proof.
  intros H Hin. rewrite forallb_forall in H.
  destruct (plain_facts _ (H _ Hin)) as (_ & _ & _ & _ & F & _).
  congruence.
Qed.

Lemma key_match_has_colon (s g r : text) :
  Re.match_at KEY_RE s = Some (g, r) -> In ":"%char s.
Proof.
  intros H. apply exec_sound in H. unfold KEY_RE, Re.lit in H. simpl in H.
  invert_matches. apply in_or_app. right. left. reflexivity.
Qed.

Lemma sub_from_no_colon (s : text) :
  ~ In ":"%char s -> Re.sub_from KEY_RE KEY_REPL 0 s = s.
Proof.
  induction s as [|c s IH]; intros H; [reflexivity|].
  cbn [Re.sub_from].
  destruct (Re.match_at KEY_RE (c :: s)) as [[g r]|] eqn:E.
  - apply key_match_has_colon in E. contradiction.
  - rewrite IH; [reflexivity|]. intros F. apply H. right. exact F.
Qed.

Lemma sub_from_skip (re : Re.pattern) (repl : text -> text) (p s : text) :
  Re.sub_from re repl (length p) (p ++ s) = Re.sub_from re repl 0 s.
Proof. induction p as [|c p IH]; [reflexivity | exact IH]. Qed.

Lemma sub_from_none (re : Re.pattern) (repl : text -> text) (c : ascii)
  (s : text) :
  Re.match_at re (c :: s) = None ->
  Re.sub_from re repl 0 (c :: s) = c :: Re.sub_from re repl 0 s.
Proof. intros H. cbn [Re.sub_from]. rewrite H. reflexivity. Qed.

Lemma sub_from_some (re : Re.pattern) (repl : text -> text) (c : ascii)
  (p g rest : text) :
  Re.match_at re (c :: p ++ rest) = Some (g, rest) ->
  Re.sub_from re repl 0 (c :: p ++ rest)
  = repl g ++ Re.sub_from re repl 0 rest.
Proof.
  intros H. cbn [Re.sub_from]. rewrite H, length_app, Nat.add_sub.
  rewrite sub_from_skip. reflexivity.
Qed.


Lemma scanstring_plain (a tail : text) :
  forallb is_plain a = true -> scanstring (a ++ DQ :: tail) = Parsed (a, tail).
Proof.
  induction a as [|c a IH]; intros H.
  - reflexivity.
  - cbn [forallb] in H. apply andb_true_iff in H as [Hc H].
    apply plain_facts in Hc as (H1 & H2 & H3 & _).
    cbn [app scanstring]. rewrite H1, H2, H3, (IH H). reflexivity.
Qed.

Lemma skip_ws_plain (b tail : text) :
  forallb is_plain b = true ->
  exists c rest,
    skip_ws (b ++ DQ :: tail) = c :: rest
    /\ is_char "}" c = false /\ is_char "," c = false.
Proof.
  induction b as [|c b IH]; intros H.
  - exists DQ, tail. repeat split.
  - cbn [forallb] in H. apply andb_true_iff in H as [Hc H].
    unfold skip_ws. cbn [app drop_while].
    destruct (is_json_ws c) eqn:Ew.
    + exact (IH H).
    + apply plain_facts in Hc as (_ & _ & _ & _ & _ & F).
      exists c, (b ++ DQ :: tail). split; [reflexivity|]. exact (F Ew).
Qed.





(** * Further properties of the script *)

(** ** Reading standard input line by line *)

Lemma code_10 (c : ascii) : (code c =? 10) = true <-> c = chr 10.
Proof.
  destruct c as [[] [] [] [] [] [] [] []]; vm_compute; split; intros H;
    try reflexivity; discriminate H.
Qed.

Lemma lines_of_concat (s : text) : forall cur,
  concat (lines_of cur s) = cur ++ s.
Proof.
  induction s as [|c s IH]; intros cur; cbn [lines_of].
  - destruct cur; simpl; rewrite ?app_nil_r; reflexivity.
  - destruct (code c =? 10); cbn [concat]; rewrite IH, <- app_assoc;
      reflexivity.
Qed.

Lemma in_removelast {A : Type} (x : A) (l : list A) :
  In x (removelast l) -> In x l.
Proof.
  induction l as [|y l IH]; simpl; [tauto|].
  destruct l; simpl in *; tauto.
Qed.

Lemma lines_of_shape (s : text) : forall cur,
  ~ In (chr 10) cur ->
  Forall (fun l => l <> [] /\ ~ In (chr 10) (removelast l)) (lines_of cur s).
Proof.
  induction s as [|c s IH]; intros cur Hcur; cbn [lines_of].
  - destruct cur as [|x cur]; constructor; [|constructor].
    split; [discriminate|]. intros H. apply Hcur, in_removelast, H.
  - destruct (code c =? 10) eqn:E.
    + constructor; [|apply IH; simpl; tauto].
      split; [destruct cur; discriminate|]. rewrite removelast_last. exact Hcur.
    + apply IH. intros H. apply in_app_or in H as [H | [H | []]]; [auto|].
      subst c. discriminate E.
Qed.

Lemma lines_of_terminated (s : text) : forall cur,
  Forall (fun l => exists body, l = body ++ LF) (removelast (lines_of cur s)).
Proof.
  induction s as [|c s IH]; intros cur; cbn [lines_of].
  - destruct cur; constructor.
  - destruct (code c =? 10) eqn:E; [|apply IH].
    apply code_10 in E. subst c. specialize (IH []).
    cbn [removelast]. destruct (lines_of [] s); constructor; [|exact IH].
    exists cur. reflexivity.
Qed.

Lemma lines_of_app_lf (s1 s2 : text) : forall cur,
  lines_of cur (s1 ++ LF ++ s2) = lines_of cur (s1 ++ LF) ++ lines_of [] s2.
Proof.
  induction s1 as [|c s1 IH]; intros cur.
  - reflexivity.
  - cbn [app lines_of]. destruct (code c =? 10).
    + cbn [app]. f_equal. apply IH.
    + apply IH.
Qed.

(** X1. Reading standard input line by line loses nothing: the lines
    put end to end are the input. No line is empty, a line feed occurs
    only as the last character of a line, and every line but the last
    ends with one. *)
Theorem lines_of_round_trip (stdin : text) :
  concat (lines_of [] stdin) = stdin
  /\ Forall (fun l => l <> [] /\ ~ In (chr 10) (removelast l))
       (lines_of [] stdin)
  /\ Forall (fun l => exists body, l = body ++ LF)
       (removelast (lines_of [] stdin)).
Proof.
  split; [apply lines_of_concat|].
  split; [apply lines_of_shape; simpl; tauto | apply lines_of_terminated].
Qed.

(** ** What has been written stays written *)

Lemma run_from_error (pre rest : list text) : forall m m' o,
  run_from m pre = (m', o) -> o <> Exit0 ->
  run_from m (pre ++ rest) = (m', o).
Proof.
  induction pre as [|line pre IH]; simpl; intros m m' o H Ho.
  - inversion H; subst. congruence.
  - destruct (feed m line) as [m1|o1]; [eauto | exact H].
Qed.

Lemma run_from_grows (pre rest : list text) (m : machine) :
  exists new,
    out (fst (run_from m (pre ++ rest)))
    = out (fst (run_from m pre)) ++ map Row new.
Proof.
  destruct (run_from m pre) as [m' o] eqn:E.
  destruct o as [|e|].
  - rewrite (run_from_app pre rest m m' E).
    destruct (run_from_invariant rest m') as (new & H & _). exists new. exact H.
  - rewrite (run_from_error pre rest m m' _ E) by discriminate.
    exists []. simpl. rewrite app_nil_r. reflexivity.
  - rewrite (run_from_error pre rest m m' _ E) by discriminate.
    exists []. simpl. rewrite app_nil_r. reflexivity.
Qed.

Lemma stdout_text_app (a b : list event) :
  stdout_text (a ++ b) = stdout_text a ++ stdout_text b.
Proof. unfold stdout_text. rewrite map_app, concat_app. reflexivity. Qed.

Lemma program_fst (stdin : text) :
  fst (program stdin) = stdout_text (out (fst (main (lines_of [] stdin)))).
Proof. unfold program. destruct (main (lines_of [] stdin)). reflexivity. Qed.

(** X2. An exception ends the run: once a run has stopped on an error,
    whatever follows in the input is not read, and the state and the
    outcome are those at the error. *)
Theorem error_is_final (pre rest : list text) :
  snd (main pre) <> Exit0 -> main (pre ++ rest) = main pre.
Proof.
  unfold main. intros H. destruct (run_from initial pre) as [m o] eqn:E.
  apply run_from_error; assumption.
Qed.

Lemma error_is_final_witness :
  main ([BENCH1_LINE] ++ [BENCH1_BRACED; THRPT_LINE]) = main [BENCH1_LINE].
Proof.
  apply (error_is_final [BENCH1_LINE] [BENCH1_BRACED; THRPT_LINE]).
  vm_compute. discriminate.
Defined.

(** X3. What has been written stays written: reading more lines only
    appends rows to what was written so far, and the text written for an
    input that ends with a line feed is a prefix of the text written for
    any input that continues it. *)
Theorem written_output_is_kept (pre rest : list text) (s1 s2 : text) :
  (exists new, out (fst (main (pre ++ rest)))
               = out (fst (main pre)) ++ map Row new)
  /\ (exists more, fst (program (s1 ++ LF ++ s2))
                   = fst (program (s1 ++ LF)) ++ more).
Proof.
  split; [apply run_from_grows|].
  rewrite !program_fst, lines_of_app_lf. unfold main.
  destruct (run_from_grows (lines_of [] (s1 ++ LF)) (lines_of [] s2) initial)
    as (new & ->).
  rewrite stdout_text_app. eexists. reflexivity.
Qed.

(** ** Config lines that do not give an object *)

(** X4. A config line that decodes to [None], the JSON [null], leaves
    [record] at [None]: the line is skipped and the next line is read as
    a config line. *)
Theorem null_config_line_skipped (pre : list text) (line : text)
  (rest : list text) (m : machine) :
  main pre = (m, Exit0) ->
  record m = PNone ->
  json_loads (normalize line) = Parsed PNone ->
  main (pre ++ line :: rest) = main (pre ++ rest).
Proof.
  unfold main. intros Hpre Er Hl.
  rewrite (run_from_app pre (line :: rest) initial m Hpre).
  rewrite (run_from_app pre rest initial m Hpre).
  cbn [run_from]. rewrite feed_config by exact Er.
  unfold config_line. rewrite Hl. destruct m as [r o]. simpl in Er. subst r.
  reflexivity.
Qed.

Lemma null_config_line_skipped_witness :
  main ([] ++ (str "null" ++ LF) :: [BENCH1_BRACED; THRPT_LINE])
  = main ([] ++ [BENCH1_BRACED; THRPT_LINE]).
Proof.
  apply (null_config_line_skipped [] (str "null" ++ LF)
           [BENCH1_BRACED; THRPT_LINE] initial); reflexivity.
Defined.

(** X5. A config line that decodes to a value that is neither [None]
    nor an object (a number, a string, a list, a boolean) is accepted;
    the run then fails on the next line, whatever it is, and writes no
    row: at [raise], at [float], or, when the line has the pattern and
    its number converts, at the assignment to [record[...]], which
    raises [TypeError]. *)
Theorem non_object_config_fails (pre : list text) (cfg line : text)
  (rest : list text) (m : machine) (v : pyval) :
  main pre = (m, Exit0) ->
  record m = PNone ->
  json_loads (normalize cfg) = Parsed v ->
  v <> PNone ->
  (forall d, v <> PDict d) ->
  exists e,
    main (pre ++ cfg :: line :: rest)
    = ({| record := v; out := out m |}, Uncaught e)
    /\ (e = RaiseStr \/ e = FloatValueError \/ e = SetItemTypeError)
    /\ (forall g r f, Re.search THRPT_RE line = Some (g, r) ->
                      py_float g = Some f -> e = SetItemTypeError).
Proof.
  unfold main. intros Hpre Er Hv Hnone Hdict.
  rewrite (run_from_app pre (cfg :: line :: rest) initial m Hpre).
  cbn [run_from]. rewrite feed_config by exact Er.
  unfold config_line. rewrite Hv.
  rewrite feed_throughput by exact Hnone.
  unfold throughput_line. cbn [record out].
  destruct (Re.search THRPT_RE line) as [[g r]|].
  - destruct (py_float g) as [f|] eqn:Ef.
    + exists SetItemTypeError.
      destruct v as [|b|z|fl|s|l|d]; try (split; [reflexivity | auto]).
      destruct (Hdict d eq_refl).
    + exists FloatValueError. split; [reflexivity|].
      split; [auto|]. intros g' r' f' H Hf. inversion H; subst. congruence.
  - exists RaiseStr. split; [reflexivity|]. split; [auto|]. discriminate.
Qed.

Lemma non_object_config_fails_witness :
  exists e,
    main ([] ++ (str "[1, 2]" ++ LF) :: THRPT_LINE :: [])
    = ({| record := PList [PInt 1; PInt 2]; out := out initial |}, Uncaught e)
    /\ (e = RaiseStr \/ e = FloatValueError \/ e = SetItemTypeError)
    /\ (forall g r f, Re.search THRPT_RE THRPT_LINE = Some (g, r) ->
                      py_float g = Some f -> e = SetItemTypeError).
Proof.
  apply (non_object_config_fails [] (str "[1, 2]" ++ LF) THRPT_LINE []
           initial (PList [PInt 1; PInt 2])).
  - reflexivity.
  - reflexivity.
  - vm_compute. reflexivity.
  - discriminate.
  - discriminate.
Defined.

Lemma dict_get_keys (d : dict) (k : text) :
  In k (dict_keys d) <-> dict_get d k <> None.
Proof.
  unfold dict_keys. induction d as [|[k0 v0] d IH]; simpl.
  - split; [tauto | congruence].
  - destruct (text_eqb k0 k) eqn:E.
    + apply text_eqb_eq in E. split; [discriminate | auto].
    + apply text_eqb_neq in E. rewrite <- IH. tauto.
Qed.

Lemma dict_to_list_ext (d1 d2 : dict) :
  (forall k, dict_get d1 k = dict_get d2 k) ->
  dict_to_list d1 = dict_to_list d2.
Proof.
  intros H. unfold dict_to_list.
  assert (W : forallb is_field_name (dict_keys d1)
              = forallb is_field_name (dict_keys d2)).
  { apply eq_true_iff_eq. rewrite !forallb_forall.
    split; intros F k Hk; apply F; apply dict_get_keys;
      apply dict_get_keys in Hk; congruence. }
  pose proof (wrong_fields_nil d1) as W1.
  pose proof (wrong_fields_nil d2) as W2. rewrite <- W in W2.
  destruct (wrong_fields d1), (wrong_fields d2).
  - f_equal. apply map_ext. intros k. rewrite H. reflexivity.
  - destruct W2 as [_ W2]. destruct W1 as [W1 _].
    discriminate (W2 (W1 eq_refl)).
  - destruct W2 as [W2 _]. destruct W1 as [_ W1].
    discriminate (W1 (W2 eq_refl)).
  - reflexivity.
Qed.

(** X7. The row of a record depends only on what its keys other than
    [k_updates_per_sec] map to: neither the order in which the config
    line lists its keys nor a throughput it gives itself changes the
    step taken on a throughput line. *)
Theorem row_from_key_values (d1 d2 : dict) (o : list event) (line : text) :
  (forall k, k <> K_UPDATES_PER_SEC -> dict_get d1 k = dict_get d2 k) ->
  feed {| record := PDict d1; out := o |} line
  = feed {| record := PDict d2; out := o |} line.
Proof.
  intros H. unfold feed, throughput_line. cbn [record out setitem].
  destruct (Re.search THRPT_RE line) as [[g r]|]; [|reflexivity].
  destruct (py_float g) as [f|]; [|reflexivity].
  rewrite (dict_to_list_ext (dict_set d1 K_UPDATES_PER_SEC (PFloat f))
             (dict_set d2 K_UPDATES_PER_SEC (PFloat f))).
  - reflexivity.
  - intros k. rewrite !dict_get_set.
    destruct (text_eqb k K_UPDATES_PER_SEC) eqn:E; [reflexivity|].
    apply H. apply text_eqb_neq. exact E.
Qed.

Lemma row_from_key_values_witness :
  feed {| record := PDict [(str "name", PStr (str "b")); (str "arity", PInt 2)];
          out := [Header] |} THRPT_LINE
  = feed {| record := PDict [(K_UPDATES_PER_SEC, PInt 7);
                             (str "arity", PInt 2);
                             (str "name", PStr (str "b"))];
            out := [Header] |} THRPT_LINE.
Proof.
  apply (row_from_key_values
           [(str "name", PStr (str "b")); (str "arity", PInt 2)]
           [(K_UPDATES_PER_SEC, PInt 7); (str "arity", PInt 2);
            (str "name", PStr (str "b"))]
           [Header] THRPT_LINE).
  intros k Hk. cbn [dict_get].
  destruct (text_eqb K_UPDATES_PER_SEC k) eqn:E0;
    [apply text_eqb_eq in E0; congruence|].
  destruct (text_eqb (str "name") k) eqn:E1;
    destruct (text_eqb (str "arity") k) eqn:E2; try reflexivity.
  apply text_eqb_eq in E1. apply text_eqb_eq in E2. subst k. discriminate E2.
Defined.

(** ** The greedy [+] *)

Lemma plus_loop_stop a ing k g (s : text) :
  match s with [] => True | c :: _ => a c = false end ->
  Re.plus_loop a ing k g s = None.
Proof. destruct s as [|c s]; simpl; [reflexivity|]. intros ->. reflexivity. Qed.

(** When the class stops at the end of [run], a match of the rest there
    is the match of the whole: nothing is given back. *)
Lemma plus_loop_max a ing k (run : text) :
  run <> [] -> forallb a run = true ->
  forall g s res,
    match s with [] => True | c :: _ => a c = false end ->
    k (pushes ing g run) s = Some res ->
    Re.plus_loop a ing k g (run ++ s) = Some res.
Proof.
  induction run as [|c run IH]; [congruence|].
  intros _ Hall g s res Hs Hk. cbn [forallb] in Hall.
  apply andb_true_iff in Hall as [Ha Hall].
  cbn [app Re.plus_loop]. rewrite Ha. rewrite <- pushes_cons in Hk.
  destruct run as [|c' run].
  - cbn [app]. rewrite (plus_loop_stop a ing k _ s Hs).
    unfold pushes in Hk. destruct ing; [rewrite app_nil_r in Hk|]; exact Hk.
  - rewrite (IH ltac:(discriminate) Hall _ s res Hs Hk). reflexivity.
Qed.

(** ** The throughput pattern finds the first number *)

Lemma thrpt_match_exact (ws g r : text) :
  ws <> [] -> forallb is_space ws = true ->
  g <> [] -> forallb is_digit_or_dot g = true ->
  Re.match_at THRPT_RE
    (str "thrpt:" ++ ws ++ str "[" ++ g ++ str " Kelem" ++ r) = Some (g, r).
Proof.
  intros Hws Hsp Hg Hnum. unfold Re.match_at, THRPT_RE, Re.lit.
  cbn [str list_ascii_of_string map app Re.exec is_char Ascii.eqb Bool.eqb
       Re.push].
  apply plus_loop_max; [exact Hws | exact Hsp | reflexivity |].
  cbn [pushes app Re.exec is_char Ascii.eqb Bool.eqb Re.push].
  apply plus_loop_max; [exact Hg | exact Hnum | reflexivity |].
  reflexivity.
Qed.

Lemma thrpt_match_starts_with_t (c : ascii) (s : text) :
  c <> "t"%char -> Re.match_at THRPT_RE (c :: s) = None.
Proof.
  intros H. unfold Re.match_at, THRPT_RE, Re.lit.
  cbn [str list_ascii_of_string map app Re.exec].
  destruct (is_char "t" c) eqn:E; [|reflexivity].
  apply is_char_eq in E. contradiction.
Qed.

Lemma search_skips (pre s : text) :
  ~ In "t"%char pre -> s <> [] ->
  Re.search THRPT_RE (pre ++ s) = Re.search THRPT_RE s.
Proof.
  intros H Hs. induction pre as [|c pre IH]; [reflexivity|].
  cbn [app Re.search]. rewrite thrpt_match_starts_with_t.
  - apply IH. intros F. apply H. right. exact F.
  - intros F. apply H. left. auto.
Qed.

(** X8. On a line with no letter t before [thrpt:], the number
    captured is the run of digits and points right after the bracket: of
    the numbers between the brackets, the first; what follows it on the
    line is not looked at. *)
Theorem first_number_is_captured (pre ws num post : text) :
  ~ In "t"%char pre ->
  ws <> [] -> forallb is_space ws = true ->
  num <> [] -> forallb is_digit_or_dot num = true ->
  Re.search THRPT_RE
    (pre ++ str "thrpt:" ++ ws ++ str "[" ++ num ++ str " Kelem" ++ post)
  = Some (num, post).
Proof.
  intros Hpre Hws Hsp Hnum Hdd.
  rewrite search_skips by (auto; discriminate).
  pose proof (thrpt_match_exact ws num post Hws Hsp Hnum Hdd) as H.
  cbn [str list_ascii_of_string app] in *. cbn [Re.search]. rewrite H.
  reflexivity.
Qed.

Lemma first_number_is_captured_witness :
  Re.search THRPT_RE
    (str "    " ++ str "thrpt:" ++ str "  " ++ str "[" ++ str "123.45"
     ++ str " Kelem" ++ str "/s 125.00 Kelem/s 127.50 Kelem/s]")
  = Some (str "123.45", str "/s 125.00 Kelem/s 127.50 Kelem/s]").
Proof.
  apply (first_number_is_captured (str "    ") (str "  ") (str "123.45")
           (str "/s 125.00 Kelem/s 127.50 Kelem/s]")).
  - simpl. intuition discriminate.
  - discriminate.
  - reflexivity.
  - discriminate.
  - reflexivity.
Defined.

(** ** The key pattern *)

Lemma key_match_shape (s g r : text) :
  Re.match_at KEY_RE s = Some (g, r) ->
  s = g ++ ":"%char :: r /\ g <> [] /\ forallb is_word g = true.
Proof.
  intros H. apply exec_sound in H. unfold KEY_RE, Re.lit in H. simpl in H.
  invert_matches. unfold pushes, Re.push in *. simpl in *. auto.
Qed.

Lemma key_match_exact (k rest : text) :
  k <> [] -> forallb is_word k = true ->
  Re.match_at KEY_RE (k ++ ":"%char :: rest) = Some (k, rest).
Proof.
  intros Hk Hw. unfold Re.match_at, KEY_RE, Re.lit.
  cbn [str list_ascii_of_string map app Re.exec].
  apply plus_loop_max; [exact Hk | exact Hw | reflexivity | reflexivity].
Qed.

(** A run of word characters is delimited by the first character that
    is not one. *)
Lemma word_run_unique (k g : text) (c c' : ascii) (rest r : text) :
  forallb is_word k = true -> forallb is_word g = true ->
  is_word c = false -> is_word c' = false ->
  k ++ c :: rest = g ++ c' :: r -> k = g /\ c = c' /\ rest = r.
Proof.
  revert g. induction k as [|x k IH]; intros [|y g] Hk Hg Hc Hc' H;
    cbn [app forallb] in *.
  - inversion H; auto.
  - inversion H; subst. apply andb_true_iff in Hg as [Hy _]. congruence.
  - inversion H; subst. apply andb_true_iff in Hk as [Hx _]. congruence.
  - inversion H; subst.
    apply andb_true_iff in Hk as [_ Hk]. apply andb_true_iff in Hg as [_ Hg].
    destruct (IH g Hk Hg Hc Hc' H2) as (-> & -> & ->). auto.
Qed.

Lemma key_match_none (k : text) (c : ascii) (rest : text) :
  forallb is_word k = true -> is_word c = false ->
  c <> ":"%char \/ k = [] ->
  Re.match_at KEY_RE (k ++ c :: rest) = None.
Proof.
  intros Hk Hc Hor.
  destruct (Re.match_at KEY_RE (k ++ c :: rest)) as [[g r]|] eqn:E;
    [|reflexivity].
  apply key_match_shape in E as (E & Hg & Hw).
  destruct (word_run_unique k g c ":" rest r Hk Hw Hc eq_refl E)
    as (-> & -> & _).
  destruct Hor; congruence.
Qed.

Lemma sub_key (k rest : text) :
  k <> [] -> forallb is_word k = true ->
  Re.sub KEY_RE KEY_REPL (k ++ ":"%char :: rest)
  = KEY_REPL k ++ Re.sub KEY_RE KEY_REPL rest.
Proof.
  intros Hk Hw. pose proof (key_match_exact k rest Hk Hw) as H.
  unfold Re.sub. destruct k as [|c k]; [congruence|].
  replace ((c :: k) ++ ":"%char :: rest)
    with (c :: (k ++ [":"%char]) ++ rest) in *
    by (cbn [app]; rewrite <- app_assoc; reflexivity).
  apply sub_from_some. exact H.
Qed.

Lemma sub_copy (k : text) (c : ascii) (rest : text) :
  forallb is_word k = true -> is_word c = false ->
  c <> ":"%char \/ k = [] ->
  Re.sub KEY_RE KEY_REPL (k ++ c :: rest)
  = k ++ c :: Re.sub KEY_RE KEY_REPL rest.
Proof.
  unfold Re.sub. induction k as [|x k IH]; intros Hk Hc Hor.
  - cbn [app]. apply sub_from_none.
    apply (key_match_none [] c rest); auto.
  - cbn [app]. rewrite sub_from_none
      by (apply (key_match_none (x :: k) c rest); auto).
    cbn [forallb] in Hk. apply andb_true_iff in Hk as [_ Hk].
    rewrite IH; auto. left. destruct Hor as [H | H]; [exact H | discriminate H].
Qed.

Lemma word_not_colon (k : text) :
  forallb is_word k = true -> ~ In ":"%char k.
Proof.
  intros H F. rewrite forallb_forall in H. discriminate (H _ F).
Qed.

(** X9. What line 29 does to a text, read from the left. A non-empty
    run of word characters [k] directly followed by a colon is put in
    double quotes, and the rewrite goes on after the colon. A run [k]
    followed by any other character [c] that is not a word character is
    copied with [c], as is a colon with no word character before it.
    A run that ends the text is copied. *)
Theorem key_rewrite_laws (k rest : text) (c : ascii) :
  forallb is_word k = true ->
  is_word c = false ->
  Re.sub KEY_RE KEY_REPL k = k
  /\ (k <> [] ->
      Re.sub KEY_RE KEY_REPL (k ++ str ":" ++ rest)
      = [DQ] ++ k ++ [DQ] ++ str ":" ++ Re.sub KEY_RE KEY_REPL rest)
  /\ (c <> ":"%char \/ k = [] ->
      Re.sub KEY_RE KEY_REPL (k ++ c :: rest)
      = k ++ c :: Re.sub KEY_RE KEY_REPL rest).
Proof.
  intros Hk Hc. split; [|split].
  - apply sub_from_no_colon, word_not_colon, Hk.
  - intros Hne. change (k ++ str ":" ++ rest) with (k ++ ":"%char :: rest).
    rewrite (sub_key k rest Hne Hk). unfold KEY_REPL.
    cbn [app str list_ascii_of_string]. rewrite <- app_assoc. reflexivity.
  - intros Hor. apply sub_copy; assumption.
Qed.

Lemma key_rewrite_laws_witness :
  Re.sub KEY_RE KEY_REPL (str "name") = str "name"
  /\ (str "name" <> [] ->
      Re.sub KEY_RE KEY_REPL (str "name" ++ str ":" ++ str " 'x'")
      = [DQ] ++ str "name" ++ [DQ] ++ str ":"
        ++ Re.sub KEY_RE KEY_REPL (str " 'x'"))
  /\ (" "%char <> ":"%char \/ str "name" = [] ->
      Re.sub KEY_RE KEY_REPL (str "name" ++ " "%char :: str " 'x'")
      = str "name" ++ " "%char :: Re.sub KEY_RE KEY_REPL (str " 'x'")).
Proof.
  apply (key_rewrite_laws (str "name") (str " 'x'") " "%char); reflexivity.
Defined.

(** ** Lines the rewrites leave alone *)

Lemma no_word_colon_tail (c : ascii) (s : text) :
  no_word_colon (c :: s) = true -> no_word_colon s = true.
Proof.
  cbn [no_word_colon]. destruct s as [|c' s]; [reflexivity|].
  intros H. apply andb_true_iff in H as [_ H]. exact H.
Qed.

Lemma no_word_colon_app (g : text) (x : ascii) (r : text) :
  no_word_colon (g ++ x :: ":"%char :: r) = true -> is_word x = false.
Proof.
  induction g as [|y g IH]; intros H.
  - cbn [app no_word_colon] in H. apply andb_true_iff in H as [H _].
    apply negb_true_iff in H. change (is_char ":" ":") with true in H.
    rewrite andb_true_r in H. exact H.
  - apply IH. exact (no_word_colon_tail _ _ H).
Qed.

Lemma no_word_colon_no_match (s : text) :
  no_word_colon s = true -> Re.match_at KEY_RE s = None.
Proof.
  intros H. destruct (Re.match_at KEY_RE s) as [[g r]|] eqn:E; [|reflexivity].
  apply key_match_shape in E as (-> & Hg & Hw).
  destruct (exists_last Hg) as (g' & x & ->).
  rewrite <- app_assoc in H. apply no_word_colon_app in H.
  rewrite forallb_app in Hw. apply andb_true_iff in Hw as [_ Hw].
  simpl in Hw. rewrite H in Hw. discriminate Hw.
Qed.

Lemma sub_no_word_colon (s : text) :
  no_word_colon s = true -> Re.sub KEY_RE KEY_REPL s = s.
Proof.
  unfold Re.sub. induction s as [|c s IH]; intros H; [reflexivity|].
  rewrite sub_from_none by (apply no_word_colon_no_match, H).
  rewrite IH by exact (no_word_colon_tail _ _ H). reflexivity.
Qed.

(** X10. A config line with no apostrophe and no word character
    directly before a colon is left as it is by lines 29-30 and decoded
    as it stands: a line that is JSON already, with its keys in double
    quotes, is accepted. *)
Theorem json_line_decoded_as_it_stands (line : text) (m : machine) :
  no_word_colon line = true ->
  forallb (fun c => negb (Ascii.eqb c SQ)) line = true ->
  record m = PNone ->
  normalize line = line
  /\ feed m line = match json_loads line with
                   | Parsed v => inl {| record := v; out := out m |}
                   | Invalid => inr (Uncaught JSONDecodeError)
                   | Unmodelled | Starved => inr OutsideModel
                   end.
Proof.
  intros Hk Hq Er.
  assert (Hn : normalize line = line).
  { unfold normalize. rewrite (sub_no_word_colon line Hk).
    apply replace_id, Hq. }
  split; [exact Hn|]. rewrite feed_config by exact Er.
  unfold config_line. rewrite Hn. reflexivity.
Qed.

Lemma json_line_decoded_as_it_stands_witness :
  normalize JSON_LINE = JSON_LINE
  /\ feed initial JSON_LINE
     = inl {| record := PDict [(str "name", PStr (str "b"));
                               (str "arity", PInt 2)];
              out := [Header] |}.
Proof.
  exact (json_line_decoded_as_it_stands JSON_LINE initial
           eq_refl eq_refl eq_refl).
Defined.

(** ** Blank lines *)

Lemma space_facts (c : ascii) :
  is_space c = true ->
  c <> ":"%char /\ Ascii.eqb c SQ = false
  /\ (is_json_ws c = false ->
      forall n r, scan_once (S n) (c :: r) = Invalid).
Proof.
  destruct c as [[] [] [] [] [] [] [] []]; intros H; vm_compute in H;
    try discriminate H; clear H;
    (split; [discriminate|]); (split; [reflexivity|]);
    intros F; vm_compute in F; try discriminate F; intros n r; reflexivity.
Qed.

Lemma drop_while_all (p q : ascii -> bool) (s : text) :
  forallb q s = true -> forallb q (drop_while p s) = true.
Proof.
  induction s as [|c s IH]; simpl; [reflexivity|].
  intros H. apply andb_true_iff in H as [Hc H].
  destruct (p c); [auto|]. simpl. rewrite Hc, H. reflexivity.
Qed.

Lemma drop_while_head (p : ascii -> bool) (s : text) (c : ascii) (r : text) :
  drop_while p s = c :: r -> p c = false.
Proof.
  induction s as [|x s IH]; simpl; [discriminate|].
  destruct (p x) eqn:E; [exact IH|]. intros H. inversion H; subst. exact E.
Qed.

Lemma normalize_blank (line : text) :
  forallb is_space line = true -> normalize line = line.
Proof.
  intros H. unfold normalize, Re.sub. rewrite sub_from_no_colon.
  - apply replace_id. rewrite forallb_forall in *. intros c Hc.
    destruct (space_facts c (H c Hc)) as (_ & -> & _). reflexivity.
  - intros F. rewrite forallb_forall in H.
    destruct (space_facts _ (H _ F)) as (E & _). congruence.
Qed.

Lemma json_loads_blank (line : text) :
  forallb is_space line = true -> json_loads line = Invalid.
Proof.
  intros H. unfold json_loads.
  pose proof (drop_while_all is_json_ws is_space line H) as Hs.
  fold (skip_ws line) in Hs.
  destruct (skip_ws line) as [|c r] eqn:E; [reflexivity|].
  apply drop_while_head in E. cbn [forallb] in Hs.
  apply andb_true_iff in Hs as [Hc _].
  destruct (space_facts c Hc) as (_ & _ & F).
  rewrite (F E). reflexivity.
Qed.

(** X11. A blank line where a config line is expected ends the run: a
    line of whitespace only is not JSON and [json.loads] raises; the
    rows written before it stay, the lines after it are not read. *)
Theorem blank_line_is_fatal (pre : list text) (line : text)
  (rest : list text) (m : machine) :
  main pre = (m, Exit0) ->
  record m = PNone ->
  forallb is_space line = true ->
  main (pre ++ line :: rest) = (m, Uncaught JSONDecodeError).
Proof.
  unfold main. intros Hpre Er Hb.
  rewrite (run_from_app pre (line :: rest) initial m Hpre).
  cbn [run_from]. rewrite feed_config by exact Er. unfold config_line.
  rewrite (normalize_blank line Hb), (json_loads_blank line Hb). reflexivity.
Qed.

Lemma blank_line_is_fatal_witness :
  main ([BENCH1_BRACED; THRPT_LINE] ++ LF :: [BENCH1_BRACED; THRPT_LINE])
  = (fst (main [BENCH1_BRACED; THRPT_LINE]), Uncaught JSONDecodeError).
Proof.
  apply (blank_line_is_fatal [BENCH1_BRACED; THRPT_LINE] LF
           [BENCH1_BRACED; THRPT_LINE]
           (fst (main [BENCH1_BRACED; THRPT_LINE]))).
  - vm_compute. reflexivity.
  - vm_compute. reflexivity.
  - reflexivity.
Defined.

(** ** A value with a colon *)

Lemma word_is_plain (w : text) :
  forallb is_word w = true -> forallb is_plain w = true.
Proof.
  intros H. rewrite forallb_forall in *. intros c Hc.
  unfold is_plain. rewrite (H c Hc). reflexivity.
Qed.

Lemma plain_tail_no_colon (b : text) :
  forallb is_plain b = true -> ~ In ":"%char (b ++ str "'}" ++ LF).
Proof.
  intros Hb H. apply in_app_or in H as [H | H];
    [exact (plain_no_colon b Hb H)|].
  simpl in H. intuition discriminate.
Qed.

Lemma normalize_colon_value_line (w b : text) :
  w <> [] -> forallb is_word w = true -> forallb is_plain b = true ->
  normalize (colon_value_line w b)
  = str "{" ++ [DQ] ++ str "name" ++ [DQ] ++ str ": " ++ [DQ] ++ [DQ] ++ w
    ++ [DQ] ++ str ":" ++ b ++ [DQ] ++ str "}" ++ LF.
Proof.
  intros Hne Hw Hb. unfold normalize, colon_value_line.
  change (str "{name: '" ++ w ++ str ":" ++ b ++ str "'}" ++ LF)
    with ([] ++ "{"%char
          :: (str "name" ++ ":"%char
              :: ([] ++ " "%char
                  :: ([] ++ SQ
                      :: (w ++ ":"%char :: (b ++ str "'}" ++ LF)))))).
  rewrite (sub_copy [] "{") by (auto; reflexivity).
  rewrite (sub_key (str "name")) by (reflexivity || discriminate).
  rewrite (sub_copy [] " ") by (auto; reflexivity).
  rewrite (sub_copy [] SQ) by (auto; reflexivity).
  rewrite (sub_key w) by assumption.
  unfold Re.sub. rewrite (sub_from_no_colon _ (plain_tail_no_colon b Hb)).
  unfold KEY_REPL. cbn [app str list_ascii_of_string].
  rewrite <- !app_assoc. cbn [app replace map].
  change (map (fun c => if Ascii.eqb c SQ then DQ else c)) with (replace SQ DQ).
  rewrite !replace_app.
  rewrite (replace_id SQ DQ w (plain_no_apostrophe w (word_is_plain w Hw))).
  cbn [replace map app].
  change (map (fun c => if Ascii.eqb c SQ then DQ else c)) with (replace SQ DQ).
  rewrite !replace_app.
  rewrite (replace_id SQ DQ b (plain_no_apostrophe b Hb)).
  reflexivity.
Qed.

Lemma json_loads_colon_value_line (w b : text) :
  w <> [] -> forallb is_word w = true -> forallb is_plain b = true ->
  json_loads (normalize (colon_value_line w b)) = Invalid.
Proof.
  intros Hne Hw Hb. rewrite (normalize_colon_value_line w b Hne Hw Hb).
  unfold json_loads.
  set (tail := str ":" ++ b ++ [DQ] ++ str "}" ++ LF).
  destruct (skip_ws_plain w tail (word_is_plain w Hw))
    as (c & rest & Hs & H1 & H2).
  set (N := str "{" ++ [DQ] ++ str "name" ++ [DQ] ++ str ": " ++ [DQ] ++ [DQ]
            ++ w ++ [DQ] ++ tail).
  assert (Hfuel : exists n, (2 * length N)%nat = S (S n)).
  { exists (2 * length (skipn 2 N) + 2)%nat. subst N. simpl. lia. }
  destruct Hfuel as [n ->]. subst N.
  change (skip_ws (str "{" ++ [DQ] ++ str "name" ++ [DQ] ++ str ": " ++ [DQ]
                   ++ [DQ] ++ w ++ [DQ] ++ tail))
    with ("{"%char :: DQ :: str "name" ++ DQ :: ":"%char :: " "%char :: DQ
          :: DQ :: (w ++ DQ :: tail)).
  simpl. simpl in Hs, H1, H2. rewrite Hs. cbv beta iota. rewrite H1, H2.
  reflexivity.
Qed.

(** X12. The key pattern also rewrites inside a value. In the config
    line [{name: 'w:b'}], with [w] a non-empty run of word characters
    and [b] made of letters, digits, underscores and spaces, [w] is put
    in quotes as if it were a key; the value then reads as an empty
    string followed by [w], which is not JSON, and [json.loads]
    raises. *)
Theorem colon_in_value_rejected (w b : text) (m : machine) :
  w <> [] ->
  forallb is_word w = true ->
  forallb is_plain b = true ->
  record m = PNone ->
  normalize (colon_value_line w b)
  = str "{" ++ [DQ] ++ str "name" ++ [DQ] ++ str ": " ++ [DQ] ++ [DQ] ++ w
    ++ [DQ] ++ str ":" ++ b ++ [DQ] ++ str "}" ++ LF
  /\ feed m (colon_value_line w b) = inr (Uncaught JSONDecodeError).
Proof.
  intros Hne Hw Hb Er.
  split; [exact (normalize_colon_value_line w b Hne Hw Hb)|].
  rewrite feed_config by exact Er. unfold config_line.
  rewrite (json_loads_colon_value_line w b Hne Hw Hb). reflexivity.
Qed.

Lemma colon_in_value_rejected_witness :
  normalize (colon_value_line (str "12") (str "30"))
  = str "{" ++ [DQ] ++ str "name" ++ [DQ] ++ str ": " ++ [DQ] ++ [DQ]
    ++ str "12" ++ [DQ] ++ str ":" ++ str "30" ++ [DQ] ++ str "}" ++ LF
  /\ feed initial (colon_value_line (str "12") (str "30"))
     = inr (Uncaught JSONDecodeError).
Proof.
  apply (colon_in_value_rejected (str "12") (str "30") initial);
    reflexivity || discriminate.
Defined.

(** ** The config line [{name: 's'}] *)

Lemma plain_csv_facts (c : ascii) :
  is_plain c = true ->
  (is_char "," c || is_char DQ c || (code c =? 13) || (code c =? 10)) = false
  /\ (code c =? 10) = false.
Proof.
  destruct c as [[] [] [] [] [] [] [] []]; vm_compute; intros H;
    try discriminate H; split; reflexivity.
Qed.

Lemma csv_field_plain (s : text) :
  forallb is_plain s = true -> csv_field s = s.
Proof.
  intros H. unfold csv_field.
  replace (needs_quotes s) with false; [reflexivity|].
  symmetry. unfold needs_quotes. apply not_true_is_false. intros F.
  apply existsb_exists in F as (c & Hc & F). rewrite forallb_forall in H.
  destruct (plain_csv_facts c (H c Hc)) as (E & _). congruence.
Qed.

Lemma lines_of_line (body rest : text) : forall cur,
  forallb (fun c => negb (code c =? 10)) body = true ->
  lines_of cur (body ++ LF ++ rest) = (cur ++ body ++ LF) :: lines_of [] rest.
Proof.
  induction body as [|c body IH]; intros cur H.
  - reflexivity.
  - cbn [forallb] in H. apply andb_true_iff in H as [Hc H].
    apply negb_true_iff in Hc. cbn [app lines_of]. rewrite Hc.
    rewrite (IH _ H), <- app_assoc. reflexivity.
Qed.

Lemma normalize_plain_value_line (s : text) :
  forallb is_plain s = true ->
  normalize (plain_value_line s)
  = str "{" ++ [DQ] ++ str "name" ++ [DQ] ++ str ": " ++ [DQ] ++ s ++ [DQ]
    ++ str "}" ++ LF.
Proof.
  intros Hs. unfold normalize, plain_value_line.
  change (str "{name: '" ++ s ++ str "'}" ++ LF)
    with ([] ++ "{"%char
          :: (str "name" ++ ":"%char :: (str " '" ++ s ++ str "'}" ++ LF))).
  rewrite (sub_copy [] "{") by (auto; reflexivity).
  rewrite (sub_key (str "name")) by (reflexivity || discriminate).
  unfold Re.sub. rewrite sub_from_no_colon.
  - unfold KEY_REPL. cbn [app str list_ascii_of_string replace map].
    change (map (fun c => if Ascii.eqb c SQ then DQ else c))
      with (replace SQ DQ).
    rewrite !replace_app.
    rewrite (replace_id SQ DQ s (plain_no_apostrophe s Hs)). reflexivity.
  - intros H. simpl in H. destruct H as [H | [H | H]]; try discriminate H.
    exact (plain_tail_no_colon s Hs H).
Qed.

Lemma json_loads_plain_value_line (s : text) :
  forallb is_plain s = true ->
  json_loads (normalize (plain_value_line s))
  = Parsed (PDict [(str "name", PStr s)]).
Proof.
  intros Hs. rewrite (normalize_plain_value_line s Hs). unfold json_loads.
  set (N := str "{" ++ [DQ] ++ str "name" ++ [DQ] ++ str ": " ++ [DQ] ++ s
            ++ [DQ] ++ str "}" ++ LF).
  assert (Hfuel : exists n, (2 * length N)%nat = S (S n)).
  { exists (2 * length (skipn 2 N) + 2)%nat. subst N. simpl. lia. }
  destruct Hfuel as [n ->]. subst N.
  change (skip_ws (str "{" ++ [DQ] ++ str "name" ++ [DQ] ++ str ": " ++ [DQ]
                   ++ s ++ [DQ] ++ str "}" ++ LF))
    with ("{"%char :: DQ :: str "name" ++ DQ :: ":"%char :: " "%char :: DQ
          :: (s ++ DQ :: str "}" ++ LF)).
  simpl. rewrite (scanstring_plain s _ Hs). reflexivity.
Qed.

(** ** Integers *)

Lemma digits_uint (ds : text) :
  forallb is_digit ds = true -> exists u, text_of_uint u = ds.
Proof.
  induction ds as [|c ds IH]; intros H.
  - exists Decimal.Nil. reflexivity.
  - cbn [forallb] in H. apply andb_true_iff in H as [Hc H].
    destruct (IH H) as [u <-]. clear IH H.
    destruct c as [[] [] [] [] [] [] [] []]; try discriminate Hc;
      first [ exists (Decimal.D0 u); reflexivity
            | exists (Decimal.D1 u); reflexivity
            | exists (Decimal.D2 u); reflexivity
            | exists (Decimal.D3 u); reflexivity
            | exists (Decimal.D4 u); reflexivity
            | exists (Decimal.D5 u); reflexivity
            | exists (Decimal.D6 u); reflexivity
            | exists (Decimal.D7 u); reflexivity
            | exists (Decimal.D8 u); reflexivity
            | exists (Decimal.D9 u); reflexivity ].
Qed.

Lemma fold_digits_uint (u : Decimal.uint) : forall acc,
  fold_left (fun a c => a * 10 + digit_val c) (text_of_uint u) acc
  = acc * 10 ^ Z.of_N (DecimalPos.Unsigned.usize u)
    + Z.of_N (DecimalPos.Unsigned.of_lu (Decimal.rev u)).
Proof.
  induction u; intros acc; cbn [text_of_uint fold_left];
    [ simpl; lia | .. ];
    rewrite IHu; unfold Decimal.rev; cbn [Decimal.revapp];
    rewrite (DecimalPos.Unsigned.of_lu_revapp u (_ Decimal.Nil));
    cbn [DecimalPos.Unsigned.usize DecimalPos.Unsigned.of_lu];
    fold (Decimal.rev u);
    rewrite N2Z.inj_succ, Z.pow_succ_r by apply N2Z.is_nonneg;
    repeat (rewrite N2Z.inj_add || rewrite N2Z.inj_mul
            || rewrite N2Z.inj_pow);
    match goal with
    | |- context [digit_val ?c] =>
        let v := eval vm_compute in (digit_val c) in
        change (digit_val c) with v
    end;
    cbn [Z.of_N]; ring.
Qed.

Lemma Z_of_digits_uint (u : Decimal.uint) :
  Z_of_digits (text_of_uint u) = Z.of_N (N.of_uint u).
Proof.
  unfold Z_of_digits. rewrite fold_digits_uint.
  unfold N.of_uint. rewrite DecimalPos.Unsigned.of_uint_alt. lia.
Qed.

Lemma digits_of_Z_uint (u : Decimal.uint) :
  digits_of_Z (Z_of_digits (text_of_uint u)) = text_of_uint (Decimal.unorm u).
Proof.
  unfold digits_of_Z. rewrite Z_of_digits_uint, N2Z.id.
  rewrite DecimalN.Unsigned.to_of. reflexivity.
Qed.

(** The decimal digits of a number read from digits without a leading
    zero are those digits. *)
Lemma digits_round_trip (c : ascii) (ds : text) :
  forallb is_digit (c :: ds) = true ->
  between 49 57 c = true \/ ds = [] ->
  digits_of_Z (Z_of_digits (c :: ds)) = c :: ds.
Proof.
  intros Hd Hc. destruct (digits_uint (c :: ds) Hd) as [u Hu].
  rewrite <- Hu, digits_of_Z_uint. f_equal.
  destruct u; try reflexivity; cbn [text_of_uint] in Hu;
    [discriminate Hu|].
  injection Hu as <- Hds. destruct Hc as [Hc | ->]; [discriminate Hc|].
  destruct u; try discriminate Hds. reflexivity.
Qed.

Lemma digit_facts (c : ascii) :
  is_digit c = true ->
  is_char "-" c = false /\ is_char "+" c = false
  /\ (is_char "," c || is_char DQ c || (code c =? 13) || (code c =? 10))
     = false.
Proof.
  destruct c as [[] [] [] [] [] [] [] []]; vm_compute; intros H;
    try discriminate H; repeat split.
Qed.

Lemma nonzero_digit (c : ascii) : between 49 57 c = true -> is_digit c = true.
Proof.
  unfold is_digit, between. rewrite !andb_true_iff, !Z.leb_le. lia.
Qed.

Lemma number_sign_cases (s sg r : text) :
  number_sign s = (sg, r) ->
  (sg = [] /\ r = s) \/ (sg = str "-" /\ s = "-"%char :: r).
Proof.
  destruct s as [|c s]; cbn [number_sign].
  - intros H. inversion H. auto.
  - destruct (is_char "-" c) eqn:E; intros H; injection H as <- <-.
    + apply is_char_eq in E. subst. right. split; reflexivity.
    + left. split; reflexivity.
Qed.

Lemma number_int_cases (s ip r : text) :
  number_int s = Some (ip, r) ->
  exists c ds, ip = c :: ds /\ forallb is_digit ip = true
               /\ (between 49 57 c = true \/ (c = "0"%char /\ ds = [])).
Proof.
  destruct s as [|c s]; cbn [number_int]; [discriminate|].
  destruct (is_char "0" c) eqn:E0.
  - intros H. inversion H; subst. apply is_char_eq in E0. subst.
    exists "0"%char, []. auto.
  - destruct (between 49 57 c) eqn:E1; [|discriminate].
    destruct (span is_digit s) as [ds r'] eqn:Es. intros H. inversion H; subst.
    apply span_spec in Es as (_ & Hds & _).
    exists c, ds. cbn [forallb]. rewrite (nonzero_digit c E1), Hds. auto.
Qed.

Lemma Z_of_digits_nonneg (ds : text) :
  forallb is_digit ds = true -> 0 <= Z_of_digits ds.
Proof.
  intros H. destruct (digits_uint ds H) as [u <-].
  rewrite Z_of_digits_uint. apply N2Z.is_nonneg.
Qed.

Lemma Z_of_digits_pos (c : ascii) (ds : text) :
  forallb is_digit (c :: ds) = true -> between 49 57 c = true ->
  0 < Z_of_digits (c :: ds).
Proof.
  intros H Hc. pose proof (Z_of_digits_nonneg _ H) as Hn.
  pose proof (digits_round_trip c ds H (or_introl Hc)) as R.
  destruct (Z.eq_dec (Z_of_digits (c :: ds)) 0) as [E | E]; [|lia].
  rewrite E in R. vm_compute in R. inversion R; subst. discriminate Hc.
Qed.

Lemma int_text_unquoted (t : text) :
  forallb (fun c => is_digit c || is_char "-" c) t = true -> csv_field t = t.
Proof.
  intros H. unfold csv_field.
  replace (needs_quotes t) with false; [reflexivity|].
  symmetry. apply not_true_is_false. intros F. unfold needs_quotes in F.
  apply existsb_exists in F as (c & Hc & F). rewrite forallb_forall in H.
  specialize (H c Hc). apply orb_true_iff in H as [H | H].
  - destruct (digit_facts c H) as (_ & _ & E). congruence.
  - apply is_char_eq in H. subst. discriminate F.
Qed.

Lemma digits_are_int_text (ds : text) :
  forallb is_digit ds = true ->
  forallb (fun c => is_digit c || is_char "-" c) ds = true.
Proof.
  intros H. rewrite forallb_forall in *. intros c Hc.
  rewrite (H c Hc). reflexivity.
Qed.

(** [str(int(t))] for the text of a JSON integer. *)
Lemma int_str_py_int (sg ip : text) (c : ascii) (ds : text) :
  (sg = [] \/ sg = str "-") ->
  ip = c :: ds -> forallb is_digit ip = true ->
  between 49 57 c = true \/ (c = "0"%char /\ ds = []) ->
  sg ++ ip <> str "-0" ->
  int_str (py_int (sg ++ ip)) = sg ++ ip.
Proof.
  intros Hsg -> Hd Hc Hne.
  assert (Hr : digits_of_Z (Z_of_digits (c :: ds)) = c :: ds).
  { apply digits_round_trip; [exact Hd|]. destruct Hc as [Hc | [_ Hc]]; auto. }
  pose proof (Z_of_digits_nonneg _ Hd) as Hn.
  destruct Hsg as [-> | ->].
  - cbn [app]. unfold py_int, take_sign.
    cbn [forallb] in Hd. apply andb_true_iff in Hd as [Hdc _].
    destruct (digit_facts c Hdc) as (-> & -> & _).
    unfold int_str. replace (Z_of_digits (c :: ds) <? 0) with false
      by (symmetry; apply Z.ltb_ge; lia).
    exact Hr.
  - change (str "-" ++ c :: ds) with ("-"%char :: c :: ds) in *.
    unfold py_int, take_sign. change (is_char "-" "-") with true. cbv iota.
    destruct Hc as [Hc | [-> ->]]; [|exfalso; apply Hne; reflexivity].
    pose proof (Z_of_digits_pos c ds Hd Hc) as Hp.
    unfold int_str. replace (- Z_of_digits (c :: ds) <? 0) with true
      by (symmetry; apply Z.ltb_lt; lia).
    rewrite Z.opp_involutive, Hr. reflexivity.
Qed.

(** X13. An integer of a config line is written with the digits it was
    read with, however large: for the text [t] of a JSON integer other
    than [-0], of at most 4300 characters (CPython refuses to convert
    longer ones), [str(int(t))] is [t], and the cell is [t] without
    quotes. *)
Theorem integer_written_as_read (s t rest : text) :
  match_number s = Some (t, [], [], rest) ->
  (length t <= 4300)%nat ->
  t <> str "-0" ->
  scan_number s = Parsed (PInt (py_int t), rest)
  /\ csv_field (field_text (PInt (py_int t))) = t.
Proof.
  intros Hm _ Hne. split; [unfold scan_number; rewrite Hm; reflexivity|].
  unfold match_number in Hm.
  destruct (number_sign s) as [sg s1] eqn:Esg.
  destruct (number_int s1) as [[ip r1]|] eqn:Eip; [|discriminate Hm].
  destruct (number_frac r1) as [fr r2]. destruct (number_exp r2) as [ex r3].
  injection Hm as <- _ _ _.
  apply number_int_cases in Eip as (c & ds & Hip & Hd & Hc).
  assert (Hsg : sg = [] \/ sg = str "-")
    by (apply number_sign_cases in Esg as [[-> _] | [-> _]]; auto).
  cbn [field_text py_str py_repr].
  rewrite (int_str_py_int sg ip c ds Hsg Hip Hd Hc Hne).
  apply int_text_unquoted. rewrite forallb_app.
  rewrite (digits_are_int_text ip Hd).
  destruct Hsg as [-> | ->]; reflexivity.
Qed.

Lemma integer_written_as_read_witness :
  scan_number (str "-12345678901234567890123, ")
  = Parsed (PInt (py_int (str "-12345678901234567890123")), str ", ")
  /\ csv_field (field_text (PInt (py_int (str "-12345678901234567890123"))))
     = str "-12345678901234567890123".
Proof.
  apply (integer_written_as_read (str "-12345678901234567890123, ")
           (str "-12345678901234567890123") (str ", ")).
  - reflexivity.
  - simpl. lia.
  - discriminate.
Defined.

(** ** The throughput cell *)

Lemma binary64_sign (neg : bool) (n d : Z) :
  (exists m e, binary64 neg n d = Finite neg m e)
  \/ binary64 neg n d = Infinity neg.
Proof.
  unfold binary64. destruct (n =? 0); [eauto|].
  destruct (scaled n d (Z.log2 n - Z.log2 d - 52)) as [sn sd].
  match goal with
  | |- context [scaled n d ?e] => destruct (scaled n d e) as [sn' sd']
  end.
  destruct (round_half_even sn' sd' =? 2 ^ 53);
    match goal with
    | |- context [971 <? ?e] => destruct (971 <? e)
    end; eauto.
Qed.

Lemma needs_quotes_app (a b : text) :
  needs_quotes (a ++ b) = needs_quotes a || needs_quotes b.
Proof. apply existsb_app. Qed.

Lemma needs_quotes_incl (a b : text) :
  incl a b -> needs_quotes b = false -> needs_quotes a = false.
Proof.
  intros Hi Hb. apply not_true_is_false. intros F. unfold needs_quotes in *.
  apply existsb_exists in F as (c & Hc & F).
  assert (E : existsb (fun c => is_char "," c || is_char DQ c
                                || (code c =? 13) || (code c =? 10)) b = true)
    by (apply existsb_exists; exists c; auto).
  congruence.
Qed.

Lemma needs_quotes_uint (u : Decimal.uint) :
  needs_quotes (text_of_uint u) = false.
Proof. induction u; simpl; auto. Qed.

Lemma needs_quotes_zeros (n : Z) : needs_quotes (zeros n) = false.
Proof.
  unfold zeros. induction (Z.to_nat n) as [|k IH]; simpl; auto.
Qed.

Lemma drop_zeros_incl (s : text) : incl (drop_zeros s) s.
Proof.
  induction s as [|c s IH]; cbn [drop_zeros]; [apply incl_refl|].
  destruct (is_char "0" c); [apply incl_tl, IH | apply incl_refl].
Qed.

Lemma needs_quotes_layout (ds : text) (decpt : Z) :
  needs_quotes ds = false -> needs_quotes (float_layout ds decpt) = false.
Proof.
  intros H. unfold float_layout.
  assert (Hf : forall n, needs_quotes (firstn n ds) = false).
  { intros n. apply needs_quotes_incl with (b := ds); [|exact H].
    intros c Hc. rewrite <- (firstn_skipn n ds). apply in_or_app. auto. }
  assert (Hk : forall n, needs_quotes (skipn n ds) = false).
  { intros n. apply needs_quotes_incl with (b := ds); [|exact H].
    intros c Hc. rewrite <- (firstn_skipn n ds). apply in_or_app. auto. }
  destruct ((-4 <? decpt) && (decpt <=? 16)).
  - destruct (decpt <=? 0); [|destruct (_ <=? decpt)];
      rewrite !needs_quotes_app, ?needs_quotes_zeros, ?H, ?Hf, ?Hk;
      reflexivity.
  - rewrite !needs_quotes_app, Hf.
    unfold digits_of_Z. rewrite needs_quotes_uint.
    destruct (_ <=? 1); [|rewrite needs_quotes_app, Hk];
      destruct (decpt - 1 <? 0); destruct (Z.abs (decpt - 1) <? 10);
      reflexivity.
Qed.

Lemma needs_quotes_float_repr (f : float) : needs_quotes (float_repr f) = false.
Proof.
  destruct f as [neg m e | neg |]; [| destruct neg; reflexivity | reflexivity].
  unfold float_repr. rewrite needs_quotes_app.
  apply orb_false_intro; [destruct neg; reflexivity|].
  destruct (m =? 0); [reflexivity|].
  destruct (shortest m e) as [c p]. cbv zeta.
  apply needs_quotes_layout.
  apply needs_quotes_incl with (b := digits_of_Z c);
    [|apply needs_quotes_uint].
  intros x Hx. apply in_rev in Hx. apply drop_zeros_incl in Hx.
  apply in_rev. exact Hx.
Qed.

(** X14. The throughput cell. The [float] of the captured number is a
    finite value with the sign bit clear, or [inf]: never [nan], never
    negative. Its cell is its [repr], written without quotes. *)
Theorem throughput_cell (line g r : text) (f : float) :
  Re.search THRPT_RE line = Some (g, r) ->
  py_float g = Some f ->
  ((exists m e, f = Finite false m e) \/ f = Infinity false)
  /\ csv_field (field_text (PFloat f)) = float_repr f.
Proof.
  intros Hs Hf. split.
  - apply search_thrpt_sound in Hs as (_ & _ & Hdd).
    destruct (py_float_token_split g Hdd) as (ip & fp & rest & _ & _ & _ & E).
    rewrite E in Hf. destruct (ip ++ fp); [discriminate Hf|].
    destruct rest; [|discriminate Hf]. injection Hf as <-.
    unfold float_of_decimal. destruct (decimal_ratio ip fp 0) as [n d].
    apply binary64_sign.
  - cbn [field_text py_str py_repr]. unfold csv_field.
    rewrite needs_quotes_float_repr. reflexivity.
Qed.

Lemma throughput_cell_witness :
  ((exists m e, F_123_45 = Finite false m e) \/ F_123_45 = Infinity false)
  /\ csv_field (field_text (PFloat F_123_45)) = float_repr F_123_45.
Proof.
  apply (throughput_cell THRPT_LINE (str "123.45") (str "/s]" ++ LF) F_123_45);
    vm_compute; reflexivity.
Defined.

(** ** A plain value, from the config line to the row *)

Lemma lines_of_plain_value (s body : text) :
  forallb is_plain s = true ->
  forallb (fun c => negb (code c =? 10)) body = true ->
  lines_of [] (plain_value_line s ++ body ++ LF)
  = [plain_value_line s; body ++ LF].
Proof.
  intros Hs Hb. unfold plain_value_line.
  replace ((str "{name: '" ++ s ++ str "'}" ++ LF) ++ body ++ LF)
    with ((str "{name: '" ++ s ++ str "'}") ++ LF ++ body ++ LF ++ [])
    by (rewrite <- !List.app_assoc, List.app_nil_r; reflexivity).
  rewrite lines_of_line.
  - rewrite (lines_of_line body [] [] Hb).
    cbn [app lines_of]. rewrite <- !List.app_assoc. reflexivity.
  - rewrite !forallb_app. apply andb_true_iff. split; [reflexivity|].
    apply andb_true_iff. split; [|reflexivity].
    rewrite forallb_forall in *. intros c Hc.
    destruct (plain_csv_facts c (Hs c Hc)) as (_ & ->). reflexivity.
Qed.

Lemma render_plain_row (s : text) (f : float) :
  forallb is_plain s = true ->
  render (Row (PStr s :: repeat (PStr []) 6 ++ [PFloat f]))
  = s ++ str ",,,,,,," ++ float_repr f ++ CRLF.
Proof.
  intros Hs. unfold render, csv_record.
  cbn [repeat app map field_text py_str].
  change (py_repr (PFloat f)) with (float_repr f).
  assert (Hf : csv_field (float_repr f) = float_repr f)
    by (unfold csv_field; rewrite needs_quotes_float_repr; reflexivity).
  destruct s as [|c s]; cbn [join map]; rewrite Hf;
    rewrite ?csv_field_plain by exact Hs;
    rewrite <- ?List.app_assoc; reflexivity.
Qed.

(** X15. A value made of letters, digits, underscores and spaces
    reaches the CSV unchanged: the config line [{name: 's'}] decodes to
    the record with [name] bound to [s], and when it is followed by a
    throughput line whose number converts to [f], the program writes the
    header and one row: [s], six empty cells and the [repr] of [f]. *)
Theorem plain_value_written_verbatim (s body g r : text) (f : float) :
  forallb is_plain s = true ->
  forallb (fun c => negb (code c =? 10)) body = true ->
  Re.search THRPT_RE (body ++ LF) = Some (g, r) ->
  py_float g = Some f ->
  json_loads (normalize (plain_value_line s))
  = Parsed (PDict [(str "name", PStr s)])
  /\ program (plain_value_line s ++ body ++ LF)
     = (render Header ++ s ++ str ",,,,,,," ++ float_repr f ++ CRLF, Exit0).
Proof.
  intros Hs Hb Hg Hf. pose proof (json_loads_plain_value_line s Hs) as Hj.
  split; [exact Hj|].
  unfold program. rewrite (lines_of_plain_value s body Hs Hb).
  unfold main. cbn [run_from].
  rewrite feed_config by reflexivity. unfold config_line. rewrite Hj.
  rewrite (throughput_row
             {| record := PDict [(str "name", PStr s)]; out := out initial |}
             (body ++ LF) [(str "name", PStr s)] g r f eq_refl Hg Hf).
  change (forallb is_field_name (dict_keys [(str "name", PStr s)])) with true.
  cbv iota. cbn [out initial app].
  change (map (cell_of [(str "name", PStr s)] f) FIELD_NAMES)
    with (PStr s :: repeat (PStr []) 6 ++ [PFloat f]).
  unfold stdout_text. cbn [map concat].
  rewrite (render_plain_row s f Hs), List.app_nil_r. reflexivity.
Qed.

Lemma plain_value_written_verbatim_witness :
  json_loads (normalize (plain_value_line (str "tree 16")))
  = Parsed (PDict [(str "name", PStr (str "tree 16"))])
  /\ program (plain_value_line (str "tree 16")
              ++ str "thrpt:   [123.45 Kelem/s]" ++ LF)
     = (render Header ++ str "tree 16" ++ str ",,,,,,,"
        ++ float_repr F_123_45 ++ CRLF, Exit0).
Proof.
  apply (plain_value_written_verbatim (str "tree 16")
           (str "thrpt:   [123.45 Kelem/s]") (str "123.45") (str "/s]" ++ LF)
           F_123_45); vm_compute; reflexivity.
Defined.

(** ** Logs one after the other *)

Lemma feed_out (r : pyval) (o : list event) (line : text) :
  feed {| record := r; out := o |} line
  = match feed {| record := r; out := [] |} line with
    | inl m => inl {| record := record m; out := o ++ out m |}
    | inr e => inr e
    end.
Proof.
  unfold feed, config_line, throughput_line. cbn [record out].
  destruct r as [|b|z|fl|s|l|d].
  1: { destruct (json_loads (normalize line)); cbn [record out];
       rewrite ?List.app_nil_r; reflexivity. }
  all: destruct (Re.search THRPT_RE line) as [[g r0]|]; [|reflexivity];
    destruct (py_float g) as [f|]; [|reflexivity];
    cbn [setitem]; try reflexivity.
  destruct (dict_to_list (dict_set d K_UPDATES_PER_SEC (PFloat f)));
    reflexivity.
Qed.

Lemma run_from_out (lines : list text) : forall r o,
  run_from {| record := r; out := o |} lines
  = ({| record := record (fst (run_from {| record := r; out := [] |} lines));
        out := o ++ out (fst (run_from {| record := r; out := [] |} lines)) |},
     snd (run_from {| record := r; out := [] |} lines)).
Proof.
  induction lines as [|line rest IH]; intros r o; cbn [run_from].
  - cbn [fst snd record out]. rewrite List.app_nil_r. reflexivity.
  - rewrite (feed_out r o line).
    destruct (feed {| record := r; out := [] |} line) as [[r1 o1]|e].
    + cbn [record out]. rewrite (IH r1 (o ++ o1)), (IH r1 o1).
      cbn [fst snd record out]. rewrite List.app_assoc. reflexivity.
    + cbn [fst snd record out]. rewrite List.app_nil_r. reflexivity.
Qed.

Lemma rows_out_app (r r' : pyval) (a b : list event) :
  rows {| record := r; out := a ++ b |}
  = rows {| record := r'; out := a |} ++ rows {| record := r'; out := b |}.
Proof. unfold rows. cbn [out]. apply flat_map_app. Qed.

(** X16. Logs one after the other. When the run on [pre] ends normally
    with no record pending, the rows for [pre] followed by [rest] are the
    rows for [pre] followed by the rows for [rest], and the run ends as
    the run on [rest] alone does. *)
Theorem logs_concatenate (pre rest : list text) (m : machine) :
  main pre = (m, Exit0) ->
  record m = PNone ->
  rows (fst (main (pre ++ rest))) = rows m ++ rows (fst (main rest))
  /\ record (fst (main (pre ++ rest))) = record (fst (main rest))
  /\ snd (main (pre ++ rest)) = snd (main rest).
Proof.
  unfold main. intros Hpre Er.
  rewrite (run_from_app pre rest initial m Hpre).
  destruct m as [r o]. cbn [record] in Er. subst r.
  unfold initial. rewrite (run_from_out rest PNone o).
  rewrite (run_from_out rest PNone [Header]). cbn [fst snd record].
  split; [|split; reflexivity].
  rewrite (rows_out_app _ PNone o), (rows_out_app _ PNone [Header]).
  reflexivity.
Qed.

Lemma logs_concatenate_witness :
  rows (fst (main ([BENCH1_BRACED; THRPT_LINE]
                   ++ [BENCH1_BRACED; THRPT_LINE; BENCH1_BRACED])))
  = rows (fst (main [BENCH1_BRACED; THRPT_LINE]))
    ++ rows (fst (main [BENCH1_BRACED; THRPT_LINE; BENCH1_BRACED]))
  /\ record (fst (main ([BENCH1_BRACED; THRPT_LINE]
                        ++ [BENCH1_BRACED; THRPT_LINE; BENCH1_BRACED])))
     = record (fst (main [BENCH1_BRACED; THRPT_LINE; BENCH1_BRACED]))
  /\ snd (main ([BENCH1_BRACED; THRPT_LINE]
                ++ [BENCH1_BRACED; THRPT_LINE; BENCH1_BRACED]))
     = snd (main [BENCH1_BRACED; THRPT_LINE; BENCH1_BRACED]).
Proof.
  apply (logs_concatenate [BENCH1_BRACED; THRPT_LINE]
           [BENCH1_BRACED; THRPT_LINE; BENCH1_BRACED]
           (fst (main [BENCH1_BRACED; THRPT_LINE]))).
  - vm_compute. reflexivity.
  - vm_compute. reflexivity.
Defined.

(** ** A record can be read back *)

Lemma read_in_field (f : text) : forall cur tail,
  existsb (is_char ",") f = false -> field_end tail ->
  csv_fields InField cur (f ++ tail) = (cur ++ f) :: after_field tail.
Proof.
  induction f as [|c f IH]; intros cur tail Hf Ht.
  - rewrite List.app_nil_r. destruct Ht as [-> | [rest ->]]; reflexivity.
  - cbn [existsb] in Hf. apply orb_false_iff in Hf as [Hc Hf].
    cbn [app csv_fields]. rewrite Hc, (IH _ _ Hf Ht), <- List.app_assoc.
    reflexivity.
Qed.

Lemma read_quoted (f : text) : forall cur tail,
  field_end tail ->
  csv_fields InQuoted cur
    (flat_map (fun c => if is_char DQ c then [DQ; DQ] else [c]) f
     ++ DQ :: tail)
  = (cur ++ f) :: after_field tail.
Proof.
  induction f as [|c f IH]; intros cur tail Ht.
  - rewrite List.app_nil_r. cbn [flat_map app csv_fields].
    change (is_char DQ DQ) with true. cbv iota.
    destruct Ht as [-> | [rest ->]]; reflexivity.
  - cbn [flat_map]. destruct (is_char DQ c) eqn:E.
    + apply is_char_eq in E. subst c. cbn [app csv_fields].
      change (is_char DQ DQ) with true. cbv iota.
      rewrite (IH _ _ Ht), <- List.app_assoc. reflexivity.
    + cbn [app csv_fields]. rewrite E, (IH _ _ Ht), <- List.app_assoc.
      reflexivity.
Qed.

Lemma needs_quotes_comma (f : text) :
  needs_quotes f = false ->
  existsb (is_char ",") f = false
  /\ match f with [] => True | c :: _ => is_char DQ c = false end.
Proof.
  unfold needs_quotes. intros H. split.
  - apply not_true_is_false. intros F.
    apply existsb_exists in F as (c & Hc & F).
    assert (E : existsb (fun c => is_char "," c || is_char DQ c
                                  || (code c =? 13) || (code c =? 10)) f
                = true)
      by (apply existsb_exists; exists c; rewrite F; auto).
    congruence.
  - destruct f as [|c f]; [exact I|]. cbn [existsb] in H.
    apply orb_false_iff in H as [H _].
    apply orb_false_iff in H as [H _]. apply orb_false_iff in H as [H _].
    apply orb_false_iff in H as [_ H]. exact H.
Qed.

Lemma read_field (f tail : text) :
  field_end tail ->
  csv_fields AtStart [] (csv_field f ++ tail) = f :: after_field tail.
Proof.
  intros Ht. unfold csv_field. destruct (needs_quotes f) eqn:E.
  - rewrite <- !List.app_assoc. cbn [app csv_fields].
    change (is_char DQ DQ) with true. cbv iota.
    exact (read_quoted f [] tail Ht).
  - apply needs_quotes_comma in E as [Hc Hq].
    destruct f as [|c f].
    + destruct Ht as [-> | [rest ->]]; reflexivity.
    + cbn [existsb] in Hc. apply orb_false_iff in Hc as [Hc0 Hc].
      cbn [app csv_fields]. rewrite Hq, Hc0.
      exact (read_in_field f [c] tail Hc Ht).
Qed.

Lemma read_joined (f : text) (l : list text) :
  csv_fields AtStart [] (join (str ",") (map csv_field (f :: l))) = f :: l.
Proof.
  revert f. induction l as [|g l IH]; intros f.
  - cbn [map join]. rewrite <- (List.app_nil_r (csv_field f)).
    rewrite read_field by (left; reflexivity). reflexivity.
  - change (join (str ",") (map csv_field (f :: g :: l)))
      with (csv_field f
            ++ ","%char :: join (str ",") (map csv_field (g :: l))).
    rewrite read_field by (right; eexists; reflexivity).
    cbn [after_field]. rewrite IH. reflexivity.
Qed.

(** The text of a record before the line break: empty for no fields
    only, and read back as the fields otherwise. *)
Lemma csv_record_body (row : list pyval) :
  exists body,
    csv_record row = body ++ CRLF
    /\ match map field_text row with
       | [] => body = []
       | fields => body <> [] /\ csv_fields AtStart [] body = fields
       end.
Proof.
  unfold csv_record. destruct (map field_text row) as [|f l].
  - exists []. auto.
  - destruct f as [|c f]; [destruct l as [|g l]|].
    + exists [DQ; DQ]. split; [reflexivity|]. split; [discriminate|].
      reflexivity.
    + eexists. split; [reflexivity|]. split; [discriminate|].
      apply read_joined.
    + eexists. split; [reflexivity|]. split; [|apply read_joined].
      destruct l as [|g l]; cbn [map join]; unfold csv_field;
        destruct (needs_quotes (c :: f)); discriminate.
Qed.

(** X17. Writing a record loses no field text: two rows that are
    written as the same line have the same field texts. A comma, a quote
    or a line break inside a field never makes two different records
    look alike. *)
Theorem csv_record_injective (r1 r2 : list pyval) :
  csv_record r1 = csv_record r2 ->
  map field_text r1 = map field_text r2.
Proof.
  intros H.
  destruct (csv_record_body r1) as (b1 & E1 & H1).
  destruct (csv_record_body r2) as (b2 & E2 & H2).
  rewrite E1, E2 in H. apply app_inv_tail in H. subst b2.
  destruct (map field_text r1) as [|f1 l1], (map field_text r2) as [|f2 l2].
  - reflexivity.
  - destruct H2 as [H2 _]. contradiction.
  - destruct H1 as [H1 _]. contradiction.
  - destruct H1 as [_ H1]. destruct H2 as [_ H2]. congruence.
Qed.

Lemma csv_record_injective_witness :
  map field_text [PInt 1; PNone; PStr (str "a,b")]
  = map field_text [PStr (str "1"); PStr []; PStr (str "a,b")].
Proof.
  apply (csv_record_injective [PInt 1; PNone; PStr (str "a,b")]
           [PStr (str "1"); PStr []; PStr (str "a,b")]).
  reflexivity.
Defined.

(** ** A line feed after the last line *)

Lemma strip_prefix_lf (p s : text) :
  forallb (fun c => negb (Ascii.eqb c (chr 10))) p = true ->
  strip_prefix p (s ++ LF) = option_map (fun r => r ++ LF) (strip_prefix p s).
Proof.
  revert s. induction p as [|x p IH]; intros s Hp; [reflexivity|].
  cbn [forallb] in Hp. apply andb_true_iff in Hp as [Hx Hp].
  destruct s as [|y s]; cbn [app strip_prefix].
  - apply negb_true_iff in Hx. unfold LF. cbn [strip_prefix]. rewrite Hx.
    reflexivity.
  - destruct (Ascii.eqb x y); [apply IH, Hp | reflexivity].
Qed.

Lemma span_digits_lf (s : text) :
  span is_digit (s ++ LF)
  = (fst (span is_digit s), snd (span is_digit s) ++ LF).
Proof.
  induction s as [|c s IH]; [reflexivity|].
  cbn [app span]. destruct (is_digit c); [|reflexivity].
  rewrite IH. destruct (span is_digit s). reflexivity.
Qed.

Lemma number_sign_lf (s : text) :
  number_sign (s ++ LF)
  = (fst (number_sign s), snd (number_sign s) ++ LF).
Proof.
  destruct s as [|c s]; [reflexivity|]. cbn [app number_sign].
  destruct (is_char "-" c); reflexivity.
Qed.

Lemma number_int_lf (s : text) :
  number_int (s ++ LF)
  = option_map (fun '(ip, r) => (ip, r ++ LF)) (number_int s).
Proof.
  destruct s as [|c s]; [reflexivity|]. cbn [app number_int].
  destruct (is_char "0" c); [reflexivity|].
  destruct (between 49 57 c); [|reflexivity].
  rewrite span_digits_lf. destruct (span is_digit s). reflexivity.
Qed.

Lemma number_frac_lf (s : text) :
  number_frac (s ++ LF)
  = (fst (number_frac s), snd (number_frac s) ++ LF).
Proof.
  destruct s as [|p s]; [reflexivity|]. cbn [app number_frac].
  destruct (is_char "." p); [|reflexivity].
  rewrite span_digits_lf. destruct (span is_digit s) as [[|d ds] r];
    reflexivity.
Qed.

Lemma number_exp_lf (s : text) :
  number_exp (s ++ LF)
  = (fst (number_exp s), snd (number_exp s) ++ LF).
Proof.
  destruct s as [|e s]; [reflexivity|]. cbn [app number_exp].
  destruct (is_char "e" (lower e)); [|reflexivity].
  destruct s as [|c s].
  - reflexivity.
  - cbn [app]. destruct (is_char "-" c || is_char "+" c).
    + rewrite span_digits_lf. destruct (span is_digit s) as [[|d ds] r];
        reflexivity.
    + change (c :: s ++ LF) with ((c :: s) ++ LF).
      rewrite span_digits_lf.
      destruct (span is_digit (c :: s)) as [[|d ds] r]; reflexivity.
Qed.

Lemma match_number_lf (s : text) :
  match_number (s ++ LF)
  = option_map (fun '(i, f, e, r) => (i, f, e, r ++ LF)) (match_number s).
Proof.
  unfold match_number. rewrite number_sign_lf.
  destruct (number_sign s) as [sg s1]. cbn [fst snd].
  rewrite number_int_lf. destruct (number_int s1) as [[ip r1]|];
    [|reflexivity].
  cbn [option_map]. rewrite number_frac_lf.
  destruct (number_frac r1) as [fr r2]. cbn [fst snd].
  rewrite number_exp_lf. destruct (number_exp r2) as [ex r3]. reflexivity.
Qed.

Lemma scan_atom_lf (s : text) : scan_atom (s ++ LF) = extend LF (scan_atom s).
Proof.
  unfold scan_atom, scan_number.
  rewrite !strip_prefix_lf by reflexivity. rewrite match_number_lf.
  repeat match goal with
         | |- context [strip_prefix ?p s] => destruct (strip_prefix p s)
         end; try reflexivity;
    destruct (match_number s) as [[[[i f] e] r]|]; try reflexivity;
    cbn [option_map]; destruct (f ++ e); try reflexivity;
    destruct (py_float _); reflexivity.
Qed.

Lemma scanstring_lf (s : text) : scanstring (s ++ LF) = extend LF (scanstring s).
Proof.
  remember (length s) as n eqn:Hn. revert s Hn.
  induction n as [n IH] using lt_wf_ind. intros s Hn.
  assert (IH' : forall s', (length s' < length s)%nat ->
            scanstring (s' ++ LF) = extend LF (scanstring s')).
  { intros s' L. apply (IH (length s')); [lia | reflexivity]. }
  clear IH. destruct s as [|c s]; [reflexivity|].
  cbn [app scanstring]. destruct (is_char DQ c); [reflexivity|].
  destruct (is_char "\" c).
  - destruct s as [|e s2]; [reflexivity|]. cbn [app].
    destruct (is_char "u" e).
    + destruct s2 as [|h1 [|h2 [|h3 [|h4 s3]]]]; try reflexivity.
      * cbn [app]. unfold hex4.
        destruct (hex_val h1), (hex_val h2), (hex_val h3); reflexivity.
      * cbn [app]. destruct (hex4 h1 h2 h3 h4) as [u|]; [|reflexivity].
        destruct (u <? 256); [|reflexivity].
        rewrite IH' by (simpl; lia).
        destruct (scanstring s3) as [[t r]| | |]; reflexivity.
    + destruct (unescape e); [|reflexivity].
      rewrite IH' by (simpl; lia).
      destruct (scanstring s2) as [[t r]| | |]; reflexivity.
  - destruct (code c <=? 31); [reflexivity|].
    rewrite IH' by (simpl; lia).
    destruct (scanstring s) as [[t r]| | |]; reflexivity.
Qed.

Lemma skip_ws_lf (s : text) :
  skip_ws (s ++ LF) = match skip_ws s with
                      | [] => []
                      | c :: r => c :: r ++ LF
                      end.
Proof.
  unfold skip_ws. induction s as [|c s IH]; [reflexivity|].
  cbn [app drop_while]. destruct (is_json_ws c); [exact IH | reflexivity].
Qed.

Lemma scan_once_nil (n : nat) :
  scan_once n [] <> Starved -> forall m, (n <= m)%nat -> scan_once m [] = Invalid.
Proof.
  destruct n as [|n]; [intros H; destruct H; reflexivity|].
  intros _ [|m] L; [lia | reflexivity].
Qed.

Lemma array_items_nil (n : nat) (acc : list pyval) :
  array_items n acc [] <> Starved ->
  forall m, (n <= m)%nat ->
    array_items m acc [] = Invalid /\ array_items n acc [] = Invalid.
Proof.
  destruct n as [|[|n]]; try (intros H; destruct H; reflexivity).
  intros _ [|[|m]] L; try lia. split; reflexivity.
Qed.

(** With a line feed added at its end, a text is decoded to the same
    value, by any budget that is at least the one that sufficed. *)
Lemma decoder_lf (n : nat) :
  (forall s m, (n <= m)%nat -> scan_once n s <> Starved ->
     scan_once m (s ++ LF) = extend LF (scan_once n s))
  /\ (forall acc s m, (n <= m)%nat -> object_pairs n acc s <> Starved ->
        object_pairs m acc (s ++ LF) = extend LF (object_pairs n acc s))
  /\ (forall acc s m, (n <= m)%nat -> array_items n acc s <> Starved ->
        array_items m acc (s ++ LF) = extend LF (array_items n acc s)).
Proof.
  induction n as [|f (IHs & IHo & IHa)].
  - repeat split; intros; exfalso; auto.
  - assert (IHw : forall s m, (f <= m)%nat ->
              scan_once f (skip_ws s) <> Starved ->
              scan_once m (skip_ws (s ++ LF))
              = extend LF (scan_once f (skip_ws s))).
    { intros s m L H. rewrite skip_ws_lf.
      destruct (skip_ws s) as [|c r] eqn:E.
      - rewrite (scan_once_nil f H m L).
        destruct f; [destruct H|]; reflexivity.
      - exact (IHs (c :: r) m L H). }
    split; [|split].
    + intros s [|m] L H; [lia|]. apply le_S_n in L.
      destruct s as [|c s']; [reflexivity|].
      cbn [app scan_once] in *. destruct (is_char DQ c).
      { rewrite scanstring_lf.
        destruct (scanstring s') as [[t r]| | |]; reflexivity. }
      destruct (is_char "{" c).
      { rewrite skip_ws_lf. destruct (skip_ws s') as [|c1 s1]; [reflexivity|].
        destruct (is_char "}" c1); [reflexivity|].
        destruct (is_char DQ c1); [|reflexivity].
        exact (IHo [] s1 m L H). }
      destruct (is_char "[" c).
      { rewrite skip_ws_lf. destruct (skip_ws s') as [|c1 s1]; [reflexivity|].
        destruct (is_char "]" c1); [reflexivity|].
        exact (IHa [] (c1 :: s1) m L H). }
      exact (scan_atom_lf (c :: s')).
    + intros acc s [|m] L H; [lia|]. apply le_S_n in L.
      cbn [object_pairs] in *. rewrite scanstring_lf.
      destruct (scanstring s) as [[key s1]| | |]; cbn [extend parse_bind] in *;
        try reflexivity.
      rewrite skip_ws_lf. destruct (skip_ws s1) as [|c s2]; [reflexivity|].
      destruct (is_char ":" c); [|reflexivity].
      rewrite (IHw s2 m L)
        by (intros F; rewrite F in H; apply H; reflexivity).
      destruct (scan_once f (skip_ws s2)) as [[v s3]| | |];
        cbn [extend parse_bind] in *; try reflexivity.
      rewrite skip_ws_lf. destruct (skip_ws s3) as [|c3 s4]; [reflexivity|].
      destruct (is_char "}" c3); [reflexivity|].
      destruct (is_char "," c3); [|reflexivity].
      rewrite skip_ws_lf. destruct (skip_ws s4) as [|c5 s5]; [reflexivity|].
      destruct (is_char DQ c5); [|reflexivity].
      exact (IHo (dict_set acc key v) s5 m L H).
    + intros acc s [|m] L H; [lia|]. apply le_S_n in L.
      cbn [array_items] in *.
      rewrite (IHs s m L)
        by (intros F; rewrite F in H; apply H; reflexivity).
      destruct (scan_once f s) as [[v s1]| | |];
        cbn [extend parse_bind] in *; try reflexivity.
      rewrite skip_ws_lf. destruct (skip_ws s1) as [|c s2]; [reflexivity|].
      destruct (is_char "]" c); [reflexivity|].
      destruct (is_char "," c); [|reflexivity].
      assert (E : skip_ws (s2 ++ LF)
                  = match skip_ws s2 with [] => [] | _ => skip_ws s2 ++ LF end)
        by (rewrite skip_ws_lf; destruct (skip_ws s2); reflexivity).
      destruct (skip_ws s2) as [|x r] eqn:E2.
      * rewrite E.
        destruct (array_items_nil f (acc ++ [v]) H m L) as [-> ->].
        reflexivity.
      * rewrite E. exact (IHa (acc ++ [v]) (x :: r) m L H).
Qed.

Lemma json_loads_lf (s : text) : json_loads (s ++ LF) = json_loads s.
Proof.
  unfold json_loads.
  destruct (decoder_fuel (S (2 * length s))) as [Hf _].
  destruct (Hf (skip_ws s)) as [N _].
  { pose proof (skip_ws_length s). lia. }
  destruct (decoder_lf (S (2 * length s))) as [Hl _].
  rewrite skip_ws_lf.
  destruct (skip_ws s) as [|c r] eqn:Es; [reflexivity|].
  change (c :: r ++ LF) with ((c :: r) ++ LF).
  rewrite (Hl (c :: r) (S (2 * length (s ++ LF)))).
  - destruct (scan_once _ (c :: r)) as [[v rest]| | |];
      cbn [extend parse_bind]; try reflexivity.
    rewrite skip_ws_lf. destruct (skip_ws rest); reflexivity.
  - rewrite length_app. simpl. lia.
  - exact N.
Qed.

Lemma ends_with_lf (a : text) (x : ascii) (s : text) :
  s ++ LF = a ++ [x] -> s = a /\ x = chr 10.
Proof.
  intros H. apply app_inj_tail in H as [-> <-]. auto.
Qed.

Lemma key_match_lf (s : text) :
  Re.match_at KEY_RE (s ++ LF)
  = option_map (fun '(g, r) => (g, r ++ LF)) (Re.match_at KEY_RE s).
Proof.
  destruct (Re.match_at KEY_RE s) as [[g r]|] eqn:E; cbn [option_map].
  - apply key_match_shape in E as (-> & Hg & Hw).
    rewrite <- List.app_assoc. apply (key_match_exact g (r ++ LF) Hg Hw).
  - destruct (Re.match_at KEY_RE (s ++ LF)) as [[g r]|] eqn:E';
      [|reflexivity].
    apply key_match_shape in E' as (E' & Hg & Hw).
    destruct r as [|x r] using rev_ind.
    + apply (ends_with_lf g ":" s) in E' as [_ F]. discriminate F.
    + clear IHr.
      change (g ++ ":"%char :: r ++ [x]) with (g ++ (":"%char :: r) ++ [x])
        in E'.
      rewrite List.app_assoc in E'. apply ends_with_lf in E' as [-> _].
      rewrite (key_match_exact g r Hg Hw) in E. discriminate E.
Qed.

Lemma sub_key_lf (s : text) :
  Re.sub KEY_RE KEY_REPL (s ++ LF) = Re.sub KEY_RE KEY_REPL s ++ LF.
Proof.
  remember (length s) as n eqn:Hn. revert s Hn.
  induction n as [n IH] using lt_wf_ind. intros s Hn.
  destruct s as [|c s]; [reflexivity|].
  pose proof (key_match_lf (c :: s)) as Hm.
  destruct (Re.match_at KEY_RE (c :: s)) as [[g r]|] eqn:E;
    cbn [option_map] in Hm.
  - apply key_match_shape in E as (E & Hg & Hw). rewrite E.
    rewrite <- List.app_assoc. cbn [app].
    rewrite !(sub_key g) by assumption.
    rewrite (IH (length r)); [rewrite <- List.app_assoc; reflexivity | | reflexivity].
    subst n. rewrite E, length_app. destruct g; [congruence|]. simpl. lia.
  - unfold Re.sub in *. cbn [app] in *.
    rewrite (sub_from_none _ _ _ _ Hm), (sub_from_none _ _ _ _ E).
    rewrite (IH (length s)); [reflexivity | subst n; simpl; lia | reflexivity].
Qed.

Lemma normalize_lf (s : text) : normalize (s ++ LF) = normalize s ++ LF.
Proof. unfold normalize. rewrite sub_key_lf, replace_app. reflexivity. Qed.

Lemma thrpt_match_lf (s : text) :
  Re.match_at THRPT_RE (s ++ LF)
  = option_map (fun '(g, r) => (g, r ++ LF)) (Re.match_at THRPT_RE s).
Proof.
  destruct (Re.match_at THRPT_RE s) as [[g r]|] eqn:E; cbn [option_map].
  - apply thrpt_match_sound in E as (ws & -> & Hws & Hsp & Hg & Hdd).
    rewrite <- !List.app_assoc.
    apply (thrpt_match_exact ws g (r ++ LF)); assumption.
  - destruct (Re.match_at THRPT_RE (s ++ LF)) as [[g r]|] eqn:E';
      [|reflexivity].
    apply thrpt_match_sound in E' as (ws & E' & Hws & Hsp & Hg & Hdd).
    destruct r as [|x r] using rev_ind.
    + rewrite List.app_nil_r in E'.
      change (str " Kelem") with (str " Kele" ++ ["m"%char]) in E'.
      rewrite !List.app_assoc in E'.
      apply ends_with_lf in E' as [_ F]. discriminate F.
    + clear IHr. rewrite !List.app_assoc in E'.
      apply ends_with_lf in E' as [-> _]. rewrite <- !List.app_assoc in E.
      destruct (thrpt_match_complete ws g r Hws Hsp Hg Hdd E).
Qed.

Lemma search_thrpt_lf (s : text) :
  Re.search THRPT_RE (s ++ LF)
  = option_map (fun '(g, r) => (g, r ++ LF)) (Re.search THRPT_RE s).
Proof.
  induction s as [|c s IH]; [reflexivity|].
  cbn [Re.search]. change ((c :: s) ++ LF) with (c :: s ++ LF) in *.
  pose proof (thrpt_match_lf (c :: s)) as Hm. cbn [app] in Hm.
  cbn [Re.search]. rewrite Hm.
  destruct (Re.match_at THRPT_RE (c :: s)) as [[g r]|]; [reflexivity|].
  exact IH.
Qed.

(** A step does the same on a line with and without a line feed added. *)
Lemma feed_lf (m : machine) (line : text) : feed m (line ++ LF) = feed m line.
Proof.
  unfold feed, config_line, throughput_line.
  rewrite normalize_lf, json_loads_lf, search_thrpt_lf.
  destruct (record m); try reflexivity;
    destruct (Re.search THRPT_RE line) as [[g r]|]; reflexivity.
Qed.

Lemma run_from_last_lf (ls : list text) (l : text) : forall m,
  run_from m (ls ++ [l ++ LF]) = run_from m (ls ++ [l]).
Proof.
  induction ls as [|x ls IH]; intros m; cbn [app run_from].
  - rewrite feed_lf. reflexivity.
  - destruct (feed m x); [apply IH | reflexivity].
Qed.

Lemma last_app_cons {A : Type} (a : list A) (c : A) (b : list A) (d : A) :
  last (a ++ c :: b) d = last (c :: b) d.
Proof.
  induction a as [|x a IH]; [reflexivity|].
  cbn [app]. rewrite <- IH. destruct (a ++ c :: b) eqn:E; [|reflexivity].
  destruct a; discriminate E.
Qed.

Lemma lines_of_last_lf (s : text) : forall cur,
  last (cur ++ s) (chr 10) <> chr 10 ->
  exists ls l, lines_of cur s = ls ++ [l]
               /\ lines_of cur (s ++ LF) = ls ++ [l ++ LF].
Proof.
  induction s as [|c s IH]; intros cur H.
  - rewrite List.app_nil_r in H. destruct cur as [|x cur]; [destruct H; reflexivity|].
    exists [], (x :: cur). split; reflexivity.
  - cbn [app lines_of]. destruct (code c =? 10) eqn:E.
    + apply code_10 in E. subst c. rewrite last_app_cons in H.
      destruct (IH []) as (ls & l & E1 & E2).
      { destruct s as [|y s]; [destruct H; reflexivity | exact H]. }
      rewrite E1, E2. exists ((cur ++ [chr 10]) :: ls), l. split; reflexivity.
    + apply IH. rewrite <- List.app_assoc. exact H.
Qed.

(** X18. The line feed after the last line is optional: for an input
    that is not empty and does not end with a line feed, adding one
    changes neither what is written nor how the run ends. *)
Theorem final_line_feed_optional (stdin : text) :
  last stdin (chr 10) <> chr 10 ->
  program (stdin ++ LF) = program stdin.
Proof.
  intros H. destruct (lines_of_last_lf stdin [] H) as (ls & l & E1 & E2).
  unfold program, main. rewrite E1, E2, run_from_last_lf. reflexivity.
Qed.

Lemma final_line_feed_optional_witness :
  program ((BENCH1_BRACED ++ str "thrpt:   [123.45 Kelem/s]") ++ LF)
  = program (BENCH1_BRACED ++ str "thrpt:   [123.45 Kelem/s]").
Proof.
  apply (final_line_feed_optional
           (BENCH1_BRACED ++ str "thrpt:   [123.45 Kelem/s]")).
  vm_compute. discriminate.
Defined.

(** ** The line of a row *)

Lemma field_text_cell_of (d : dict) (f : float) (k : text) :
  text_eqb k K_UPDATES_PER_SEC = false ->
  field_text (cell_of d f k)
  = match dict_get d k with Some v => field_text v | None => [] end.
Proof.
  intros E. unfold cell_of. rewrite E.
  destruct (dict_get d k); reflexivity.
Qed.

Lemma row_field_texts (d : dict) (f : float) :
  map field_text (map (cell_of d f) FIELD_NAMES)
  = map (fun k => match dict_get d k with
                  | Some v => field_text v
                  | None => []
                  end) (removelast FIELD_NAMES)
    ++ [float_repr f].
Proof.
  unfold FIELD_NAMES. cbn [map removelast app].
  rewrite !field_text_cell_of by reflexivity. reflexivity.
Qed.

(** X6. The line written for a row reads back as eight fields, whatever
    the values of the record contain. Each row comes from a config line
    and the line right after it; its first seven fields are the texts of
    what the record of the config line binds the first seven field names
    to, empty for a name it lacks, and the eighth is the [repr] of the
    [float] of the number captured on the second line, also when the
    config line gives a [k_updates_per_sec] of its own. *)
Theorem row_line_has_eight_fields (lines : list text) :
  Forall (fun cells =>
            exists pre c t post d g r f body,
              lines = pre ++ c :: t :: post
              /\ json_loads (normalize c) = Parsed (PDict d)
              /\ Re.search THRPT_RE t = Some (g, r)
              /\ py_float g = Some f
              /\ last cells PNone = PFloat f
              /\ render (Row cells) = body ++ CRLF
              /\ csv_fields AtStart [] body
                 = map (fun k => match dict_get d k with
                                 | Some v => field_text v
                                 | None => []
                                 end) (removelast FIELD_NAMES)
                   ++ [float_repr f])
    (rows (fst (main lines))).
Proof.
  unfold main.
  destruct (run_from_invariant lines initial) as (new & Hout & _ & Hprov).
  rewrite (rows_of_events _ new Hout). cbn [record initial] in Hprov.
  apply Forall_impl with (2 := Hprov).
  intros cells (pre & c & t & post & Hl & d & g & r & f & Hd & Hs & Hf & ->).
  destruct (csv_record_body (map (cell_of d f) FIELD_NAMES))
    as (body & Eb & Hb).
  rewrite row_field_texts in Hb.
  exists pre, c, t, post, d, g, r, f, body.
  repeat (split; [assumption || reflexivity|]).
  destruct (map _ (removelast FIELD_NAMES) ++ [float_repr f]) eqn:E.
  - apply app_eq_nil in E as [_ E]. discriminate E.
  - exact (proj2 Hb).
Qed.
